(** * gokeys: the sequence decoder, the raw-mode backend and the capture
      pipeline of package [input], embedded in Rocq.

    Sources embedded here:
    - [input/event.go]   : [Key], [Modifier], [Event];
    - [input/parser.go]  : [SequenceNode], [SequenceParser], [Parse];
    - [input/backend_unix_darwin.go] : [unixBackend];
    - [input/impl.go]    : [inputImpl] and its capture loop;
    - Go's [unicode/utf8]: [FullRune], [DecodeRune], [EncodeRune]. *)

From Stdlib Require Import ZArith Lia List String.
From Stdlib Require Import Strings.Byte Strings.Ascii.
From stdpp Require Import base option countable gmap list.

Local Open Scope Z_scope.

(* ===================================================================== *)
(** ** Bytes and Go's fixed-width integers *)
(* ===================================================================== *)

(** A Go [byte] is Rocq's 256-constructor [Byte.byte]; [bv b] is its
    numeric value in [0, 255]. *)
Definition bv (b : byte) : Z := Z.of_N (Byte.to_N b).

(** The byte with numeric value [z mod 256]: Go's conversion [byte(z)]. *)
Definition to_byte (z : Z) : byte :=
  match Byte.of_N (Z.to_N (z mod 256)) with
  | Some b => b
  | None => x00
  end.

#[global] Instance byte_eq_dec : EqDecision byte := Byte.byte_eq_dec.

#[global] Instance byte_countable : Countable byte.
Proof.
  refine (inj_countable' Byte.to_N (fun n => to_byte (Z.of_N n)) _).
  abstract (intros b; destruct b; reflexivity).
Defined.

(** Two's-complement wrap to [int32], the representation of [rune]. *)
Definition int32 (z : Z) : Z := (z + 2147483648) mod 4294967296 - 2147483648.

(* ===================================================================== *)
(** ** input/event.go *)
(* ===================================================================== *)

(** [type Key int] with its [iota] constants. *)
Definition Key := Z.

Definition KeyUnknown : Key := 0.
Definition KeyEscape : Key := 1.
Definition KeyEnter : Key := 2.
Definition KeyBackspace : Key := 3.
Definition KeyTab : Key := 4.
Definition KeyDelete : Key := 5.
Definition KeyInsert : Key := 6.
Definition KeyUp : Key := 7.
Definition KeyDown : Key := 8.
Definition KeyLeft : Key := 9.
Definition KeyRight : Key := 10.
Definition KeyHome : Key := 11.
Definition KeyEnd : Key := 12.
Definition KeyPageUp : Key := 13.
Definition KeyPageDown : Key := 14.
Definition KeyF1 : Key := 15.
Definition KeyF2 : Key := 16.
Definition KeyF3 : Key := 17.
Definition KeyF4 : Key := 18.
Definition KeyF5 : Key := 19.
Definition KeyF6 : Key := 20.
Definition KeyF7 : Key := 21.
Definition KeyF8 : Key := 22.
Definition KeyF9 : Key := 23.
Definition KeyF10 : Key := 24.
Definition KeyF11 : Key := 25.
Definition KeyF12 : Key := 26.
Definition KeyA : Key := 27.
Definition KeyB : Key := 28.
Definition KeyC : Key := 29.
Definition KeyD : Key := 30.
Definition KeyE : Key := 31.
Definition KeyF : Key := 32.
Definition KeyG : Key := 33.
Definition KeyH : Key := 34.
Definition KeyI : Key := 35.
Definition KeyJ : Key := 36.
Definition KeyK : Key := 37.
Definition KeyL : Key := 38.
Definition KeyM : Key := 39.
Definition KeyN : Key := 40.
Definition KeyO : Key := 41.
Definition KeyP : Key := 42.
Definition KeyQ : Key := 43.
Definition KeyR : Key := 44.
Definition KeyS : Key := 45.
Definition KeyT : Key := 46.
Definition KeyU : Key := 47.
Definition KeyV : Key := 48.
Definition KeyW : Key := 49.
Definition KeyX : Key := 50.
Definition KeyY : Key := 51.
Definition KeyZ : Key := 52.
Definition Key0 : Key := 53.
Definition Key1 : Key := 54.
Definition Key2 : Key := 55.
Definition Key3 : Key := 56.
Definition Key4 : Key := 57.
Definition Key5 : Key := 58.
Definition Key6 : Key := 59.
Definition Key7 : Key := 60.
Definition Key8 : Key := 61.
Definition Key9 : Key := 62.
Definition KeyCtrlA : Key := 63.
Definition KeyCtrlB : Key := 64.
Definition KeyCtrlC : Key := 65.
Definition KeyCtrlD : Key := 66.
Definition KeyCtrlE : Key := 67.
Definition KeyCtrlF : Key := 68.
Definition KeyCtrlG : Key := 69.
Definition KeyCtrlH : Key := 70.
Definition KeyCtrlI : Key := 71.
Definition KeyCtrlJ : Key := 72.
Definition KeyCtrlK : Key := 73.
Definition KeyCtrlL : Key := 74.
Definition KeyCtrlM : Key := 75.
Definition KeyCtrlN : Key := 76.
Definition KeyCtrlO : Key := 77.
Definition KeyCtrlP : Key := 78.
Definition KeyCtrlQ : Key := 79.
Definition KeyCtrlR : Key := 80.
Definition KeyCtrlS : Key := 81.
Definition KeyCtrlT : Key := 82.
Definition KeyCtrlU : Key := 83.
Definition KeyCtrlV : Key := 84.
Definition KeyCtrlW : Key := 85.
Definition KeyCtrlX : Key := 86.
Definition KeyCtrlY : Key := 87.
Definition KeyCtrlZ : Key := 88.
Definition KeySpace : Key := 89.

(** [type Modifier int]; [ModShift = 1 << iota] sits on the second line
    of its [const] block, so [iota] is 1 there. *)
Definition Modifier := Z.

Definition ModNone : Modifier := 0.
Definition ModShift : Modifier := Z.shiftl 1 1.
Definition ModAlt : Modifier := Z.shiftl 1 2.
Definition ModCtrl : Modifier := Z.shiftl 1 3.

(** [rune] is [int32]; [time.Time] is abstracted to a clock reading. *)
Definition rune := Z.
Definition Time := Z.

(** The fields carry the prefix [E]: [Key] already names the type. *)
Record Event := mkEvent {
  EKey : Key;
  ERune : rune;
  EModifiers : Modifier;
  ETimestamp : Time;
  EPressed : bool;
  ERepeat : bool
}.

(** The zero value [Event{}]. *)
Definition Event_zero : Event := mkEvent KeyUnknown 0 ModNone 0 false false.

#[global] Instance Event_eq_dec : EqDecision Event.
Proof. solve_decision. Defined.

(* ===================================================================== *)
(** ** Go errors *)
(* ===================================================================== *)

(** The [error] values this package creates or inspects: the sentinel
    [io.EOF] (compared by identity), [fmt.Errorf] values (with or without
    a wrapped cause), and errors coming back from the operating system. *)
Inductive error :=
| io_EOF
| Errorf (msg : string)
| ErrorfW (msg : string) (cause : error)
| os_ErrDeadlineExceeded
| syscall_Errno (n : Z).

#[global] Instance error_eq_dec : EqDecision error.
Proof. solve_decision. Defined.

(** [err.Error()]. *)
Fixpoint error_Error (e : error) : string :=
  match e with
  | io_EOF => "EOF"
  | Errorf msg => msg
  | ErrorfW msg cause => msg ++ ": " ++ error_Error cause
  | os_ErrDeadlineExceeded => "i/o timeout"
  | syscall_Errno _ => "errno"
  end.

(* ===================================================================== *)
(** ** unicode/utf8 (Go standard library) *)
(* ===================================================================== *)

Module utf8.

Definition RuneError : rune := 65533.   (* U+FFFD *)
Definition MaxRune : rune := 1114111.   (* U+10FFFF *)
Definition UTFMax : Z := 4.
Definition surrogateMin : rune := 55296.  (* 0xD800 *)
Definition surrogateMax : rune := 57343.  (* 0xDFFF *)

Definition t1 := 0.     (* 0b00000000 *)
Definition tx := 128.   (* 0b10000000 *)
Definition t2 := 192.   (* 0b11000000 *)
Definition t3 := 224.   (* 0b11100000 *)
Definition t4 := 240.   (* 0b11110000 *)
Definition t5 := 248.   (* 0b11111000 *)

Definition maskx := 63. (* 0b00111111 *)
Definition mask2 := 31. (* 0b00011111 *)
Definition mask3 := 15. (* 0b00001111 *)
Definition mask4 := 7.  (* 0b00000111 *)

Definition rune1Max : rune := 127.      (* 1<<7 - 1 *)
Definition rune2Max : rune := 2047.     (* 1<<11 - 1 *)
Definition rune3Max : rune := 65535.    (* 1<<16 - 1 *)

Definition locb := 128. (* 0b10000000 *)
Definition hicb := 191. (* 0b10111111 *)

(** Entries of the [first] table. *)
Definition xx := 241.   (* 0xF1: invalid, size 1 *)
Definition as_ := 240.  (* 0xF0: ASCII, size 1 *)
Definition s1 := 2.     (* 0x02 *)
Definition s2 := 19.    (* 0x13 *)
Definition s3 := 3.     (* 0x03 *)
Definition s4 := 35.    (* 0x23 *)
Definition s5 := 52.    (* 0x34 *)
Definition s6 := 4.     (* 0x04 *)
Definition s7 := 68.    (* 0x44 *)

(** [first[p0]]: information about the first byte of an encoding. The
    Go array has 256 entries laid out in the ranges tested here. *)
Definition first (p0 : Z) : Z :=
  if p0 <=? 127 then as_           (* 0x00-0x7F *)
  else if p0 <=? 193 then xx       (* 0x80-0xC1 *)
  else if p0 <=? 223 then s1       (* 0xC2-0xDF *)
  else if p0 =? 224 then s2        (* 0xE0 *)
  else if p0 <=? 236 then s3       (* 0xE1-0xEC *)
  else if p0 =? 237 then s4        (* 0xED *)
  else if p0 <=? 239 then s3       (* 0xEE-0xEF *)
  else if p0 =? 240 then s5        (* 0xF0 *)
  else if p0 <=? 243 then s6       (* 0xF1-0xF3 *)
  else if p0 =? 244 then s7        (* 0xF4 *)
  else xx.                         (* 0xF5-0xFF *)

Record acceptRange := { lo : Z; hi : Z }.

(** [acceptRanges[i]]; entries past index 4 are the zero value. *)
Definition acceptRanges (i : Z) : acceptRange :=
  if i =? 0 then {| lo := locb; hi := hicb |}
  else if i =? 1 then {| lo := 160; hi := hicb |}
  else if i =? 2 then {| lo := locb; hi := 159 |}
  else if i =? 3 then {| lo := 144; hi := hicb |}
  else if i =? 4 then {| lo := locb; hi := 143 |}
  else {| lo := 0; hi := 0 |}.

(** [p[i]] for an index known to be in range. *)
Definition at_ (p : list byte) (i : nat) : Z := bv (nth i p x00).

(** [utf8.FullRune]. *)
Definition FullRune (p : list byte) : bool :=
  let n := Z.of_nat (length p) in
  if n =? 0 then false
  else
    let x := first (at_ p 0) in
    if n >=? Z.land x 7 then true
    else
      let accept := acceptRanges (Z.shiftr x 4) in
      if (1 <? n) && ((at_ p 1 <? lo accept) || (hi accept <? at_ p 1)) then true
      else if (2 <? n) && ((at_ p 2 <? locb) || (hicb <? at_ p 2)) then true
      else false.

(** [utf8.DecodeRune]. The mask [rune(x) << 31 >> 31] is computed on
    [int32] as in Go: all ones when [x] is odd, zero otherwise. *)
Definition DecodeRune (p : list byte) : rune * Z :=
  let n := Z.of_nat (length p) in
  if n <? 1 then (RuneError, 0)
  else
    let p0 := at_ p 0 in
    let x := first p0 in
    if x >=? as_ then
      let mask := Z.shiftr (int32 (Z.shiftl x 31)) 31 in
      (Z.lor (Z.ldiff p0 mask) (Z.land RuneError mask), 1)
    else
      let sz := Z.land x 7 in
      let accept := acceptRanges (Z.shiftr x 4) in
      if n <? sz then (RuneError, 1)
      else
        let b1 := at_ p 1 in
        if (b1 <? lo accept) || (hi accept <? b1) then (RuneError, 1)
        else if sz <=? 2 then
          (Z.lor (Z.shiftl (Z.land p0 mask2) 6) (Z.land b1 maskx), 2)
        else
          let b2 := at_ p 2 in
          if (b2 <? locb) || (hicb <? b2) then (RuneError, 1)
          else if sz <=? 3 then
            (Z.lor (Z.lor (Z.shiftl (Z.land p0 mask3) 12)
                          (Z.shiftl (Z.land b1 maskx) 6))
                   (Z.land b2 maskx), 3)
          else
            let b3 := at_ p 3 in
            if (b3 <? locb) || (hicb <? b3) then (RuneError, 1)
            else
              (Z.lor (Z.lor (Z.lor (Z.shiftl (Z.land p0 mask4) 18)
                                   (Z.shiftl (Z.land b1 maskx) 12))
                            (Z.shiftl (Z.land b2 maskx) 6))
                     (Z.land b3 maskx), 4).

(** [utf8.AppendRune(nil, r)]: the encoding of [r], as [EncodeRune]
    writes it. [uint32(r)] is [r mod 2^32]. *)
Definition EncodeRune (r : rune) : list byte :=
  let i := r mod 4294967296 in
  if i <=? rune1Max then [to_byte r]
  else if i <=? rune2Max then
    [to_byte (Z.lor t2 (bv (to_byte (Z.shiftr r 6))));
     to_byte (Z.lor tx (Z.land (bv (to_byte r)) maskx))]
  else if (i <? surrogateMin) || ((surrogateMax <? i) && (i <=? rune3Max)) then
    [to_byte (Z.lor t3 (bv (to_byte (Z.shiftr r 12))));
     to_byte (Z.lor tx (Z.land (bv (to_byte (Z.shiftr r 6))) maskx));
     to_byte (Z.lor tx (Z.land (bv (to_byte r)) maskx))]
  else if (rune3Max <? i) && (i <=? MaxRune) then
    [to_byte (Z.lor t4 (bv (to_byte (Z.shiftr r 18))));
     to_byte (Z.lor tx (Z.land (bv (to_byte (Z.shiftr r 12))) maskx));
     to_byte (Z.lor tx (Z.land (bv (to_byte (Z.shiftr r 6))) maskx));
     to_byte (Z.lor tx (Z.land (bv (to_byte r)) maskx))]
  else
    [xef; xbf; xbd].   (* the encoding of RuneError *)

(** [utf8.ValidRune]: a Unicode scalar value. *)
Definition ValidRune (r : rune) : bool :=
  ((0 <=? r) && (r <? surrogateMin)) || ((surrogateMax <? r) && (r <=? MaxRune)).

End utf8.

(** The second-byte range [acceptRanges] allows after the lead byte [x]
    of a multi-byte encoding. *)
Definition acceptLo (x : Z) : Z :=
  if x =? 224 then 160 else if x =? 240 then 144 else 128.
Definition acceptHi (x : Z) : Z :=
  if x =? 237 then 159 else if x =? 244 then 143 else 191.

(** The byte patterns of a complete multi-byte encoding, as [first] and
    [acceptRanges] delimit them. *)
Inductive WellFormed : list byte -> Prop :=
| WF2 b0 b1 :
    194 <= bv b0 <= 223 -> 128 <= bv b1 <= 191 -> WellFormed [b0; b1]
| WF3 b0 b1 b2 :
    224 <= bv b0 <= 239 -> acceptLo (bv b0) <= bv b1 <= acceptHi (bv b0) ->
    128 <= bv b2 <= 191 -> WellFormed [b0; b1; b2]
| WF4 b0 b1 b2 b3 :
    240 <= bv b0 <= 244 -> acceptLo (bv b0) <= bv b1 <= acceptHi (bv b0) ->
    128 <= bv b2 <= 191 -> 128 <= bv b3 <= 191 -> WellFormed [b0; b1; b2; b3].

(** [seq] is a proper prefix of the encoding of a scalar value that takes
    more than one byte: more bytes are needed to complete the character. *)
Definition IncompleteUTF8 (seq : list byte) : Prop :=
  exists V rest, utf8.ValidRune V = true /\ 128 <= V /\ rest <> []
                 /\ seq ++ rest = utf8.EncodeRune V.

(* ===================================================================== *)
(** ** input/parser.go *)
(* ===================================================================== *)

(** A node of the escape-sequence trie. Go's [map[byte]*SequenceNode] is a
    finite map; a [nil] map and an empty one answer every lookup alike, and
    [addSequence] replaces a [nil] map by an empty one before writing, so
    both are the empty [gmap] here. *)
#[warnings="-register-all"]
Inductive SequenceNode :=
  mkNode (key : Key) (modifier : Modifier) (children : gmap byte SequenceNode).

Definition key (n : SequenceNode) : Key := let (k, _, _) := n in k.
Definition modifier (n : SequenceNode) : Modifier := let (_, m, _) := n in m.
Definition children (n : SequenceNode) : gmap byte SequenceNode :=
  let (_, _, c) := n in c.

Record SequenceParser := { root : SequenceNode }.

(** The byte of a character literal such as ['A']. *)
Definition ch (a : Ascii.ascii) : byte := Ascii.byte_of_ascii a.
Arguments ch a%_char.

(** [addSequence]: the loop walks down from the root, creating the missing
    child for each byte, and sets key and modifier on the node it ends on.
    The in-place update of the pointer structure is the rebuilt path. *)
Fixpoint addSequence_from (node : SequenceNode) (seq : list byte)
    (k : Key) (mod_ : Modifier) : SequenceNode :=
  match seq with
  | [] => mkNode k mod_ (children node)
  | b :: rest =>
      let child :=
        match children node !! b with
        | Some c => c
        | None => mkNode KeyUnknown 0 ∅
        end in
      mkNode (key node) (modifier node)
             (<[b := addSequence_from child rest k mod_]> (children node))
  end.

Definition addSequence (p : SequenceParser) (seq : list byte)
    (k : Key) (mod_ : Modifier) : SequenceParser :=
  {| root := addSequence_from (root p) seq k mod_ |}.

(** The calls of [buildTrie], in source order. *)
Definition sequenceTable : list (list byte * Key * Modifier) :=
  [ (* CSI sequences (ESC [) *)
    ([x1b; ch "["; ch "A"], KeyUp, ModNone);
    ([x1b; ch "["; ch "B"], KeyDown, ModNone);
    ([x1b; ch "["; ch "C"], KeyRight, ModNone);
    ([x1b; ch "["; ch "D"], KeyLeft, ModNone);
    ([x1b; ch "["; ch "H"], KeyHome, ModNone);
    ([x1b; ch "["; ch "F"], KeyEnd, ModNone);
    ([x1b; ch "["; ch "2"; ch "~"], KeyInsert, ModNone);
    ([x1b; ch "["; ch "3"; ch "~"], KeyDelete, ModNone);
    ([x1b; ch "["; ch "5"; ch "~"], KeyPageUp, ModNone);
    ([x1b; ch "["; ch "6"; ch "~"], KeyPageDown, ModNone);
    (* Function keys (SS3 sequences: ESC O) *)
    ([x1b; ch "O"; ch "P"], KeyF1, ModNone);
    ([x1b; ch "O"; ch "Q"], KeyF2, ModNone);
    ([x1b; ch "O"; ch "R"], KeyF3, ModNone);
    ([x1b; ch "O"; ch "S"], KeyF4, ModNone);
    (* Function keys (CSI sequences: ESC [) *)
    ([x1b; ch "["; ch "1"; ch "5"; ch "~"], KeyF5, ModNone);
    ([x1b; ch "["; ch "1"; ch "7"; ch "~"], KeyF6, ModNone);
    ([x1b; ch "["; ch "1"; ch "8"; ch "~"], KeyF7, ModNone);
    ([x1b; ch "["; ch "1"; ch "9"; ch "~"], KeyF8, ModNone);
    ([x1b; ch "["; ch "2"; ch "0"; ch "~"], KeyF9, ModNone);
    ([x1b; ch "["; ch "2"; ch "1"; ch "~"], KeyF10, ModNone);
    ([x1b; ch "["; ch "2"; ch "3"; ch "~"], KeyF11, ModNone);
    ([x1b; ch "["; ch "2"; ch "4"; ch "~"], KeyF12, ModNone) ].

Definition addSequences (tbl : list (list byte * Key * Modifier))
    (p : SequenceParser) : SequenceParser :=
  fold_left (fun q '(s, k, m) => addSequence q s k m) tbl p.

Definition buildTrie (p : SequenceParser) : SequenceParser :=
  addSequences sequenceTable p.

Definition NewSequenceParser : SequenceParser :=
  buildTrie {| root := mkNode KeyUnknown 0 ∅ |}.

(** [ctrlCharToKey]. *)
Definition ctrlCharToKey (b : Z) : Key :=
  if b =? 1 then KeyCtrlA
  else if b =? 2 then KeyCtrlB
  else if b =? 3 then KeyCtrlC
  else if b =? 4 then KeyCtrlD
  else if b =? 5 then KeyCtrlE
  else if b =? 6 then KeyCtrlF
  else if b =? 7 then KeyCtrlG
  else if b =? 8 then KeyCtrlH
  (* 0x09 is Tab, handled separately *)
  else if b =? 10 then KeyCtrlJ
  else if b =? 11 then KeyCtrlK
  else if b =? 12 then KeyCtrlL
  (* 0x0d is Enter, handled separately *)
  else if b =? 14 then KeyCtrlN
  else if b =? 15 then KeyCtrlO
  else if b =? 16 then KeyCtrlP
  else if b =? 17 then KeyCtrlQ
  else if b =? 18 then KeyCtrlR
  else if b =? 19 then KeyCtrlS
  else if b =? 20 then KeyCtrlT
  else if b =? 21 then KeyCtrlU
  else if b =? 22 then KeyCtrlV
  else if b =? 23 then KeyCtrlW
  else if b =? 24 then KeyCtrlX
  else if b =? 25 then KeyCtrlY
  else if b =? 26 then KeyCtrlZ
  else KeyUnknown.

(** [runeToKey]; the character literals are written as code points. *)
Definition runeToKey (r : rune) : Key :=
  if (97 <=? r) && (r <=? 122) then KeyA + (r - 97)         (* 'a'..'z' *)
  else if (65 <=? r) && (r <=? 90) then KeyA + (r - 65)     (* 'A'..'Z' *)
  else if (48 <=? r) && (r <=? 57) then Key0 + (r - 48)     (* '0'..'9' *)
  else if r =? 32 then KeySpace                             (* ' ' *)
  else if r =? 9 then KeyTab                                (* '\t' *)
  else if (r =? 13) || (r =? 10) then KeyEnter              (* '\r', '\n' *)
  else KeyUnknown.

(** Field assignments on the local [event]. *)
Definition setKey (k : Key) (e : Event) : Event :=
  mkEvent k (ERune e) (EModifiers e) (ETimestamp e) (EPressed e) (ERepeat e).
Definition setRune (r : rune) (e : Event) : Event :=
  mkEvent (EKey e) r (EModifiers e) (ETimestamp e) (EPressed e) (ERepeat e).
Definition setModifiers (m : Modifier) (e : Event) : Event :=
  mkEvent (EKey e) (ERune e) m (ETimestamp e) (EPressed e) (ERepeat e).

(** The trie walk of [Parse]: [None] when some byte has no child. *)
Fixpoint walk (node : SequenceNode) (seq : list byte) : option SequenceNode :=
  match seq with
  | [] => Some node
  | b :: rest =>
      match children node !! b with
      | Some next => walk next rest
      | None => None
      end
  end.

(** The key stored where [seq] leads in the trie, [KeyUnknown] when the
    walk falls off. *)
Definition keyAt (node : SequenceNode) (seq : list byte) : Key :=
  match walk node seq with
  | Some n => key n
  | None => KeyUnknown
  end.

(** The byte sequences of single keys that take more than one byte: the
    encoding of one scalar value above U+007F, or a sequence of the trie. *)
Inductive ValidSequence : list byte -> Prop :=
| ValidUTF8 V :
    utf8.ValidRune V = true -> 128 <= V -> ValidSequence (utf8.EncodeRune V)
| ValidEscape S K M : In (S, K, M) sequenceTable -> ValidSequence S.

Section Clock.

(** The reading [time.Now()] returns while an event is being built. *)
Variable now : Time.

(** [Parse], from the UTF-8 test onwards (the part reached by multi-byte
    input and by a lone byte >= 0x80). *)
Definition Parse_multi (p : SequenceParser) (event : Event)
    (seq : list byte) : Event * option error :=
  if (0 <? Z.of_nat (length seq)) && (utf8.at_ seq 0 >=? 128)
     && negb (utf8.at_ seq 0 =? 27) then
    if negb (utf8.FullRune seq) then
      (Event_zero, Some (Errorf "incomplete UTF-8 sequence"))
    else
      let '(r, size) := utf8.DecodeRune seq in
      if (r =? utf8.RuneError) && (size =? 1) then
        (setRune utf8.RuneError (setKey KeyUnknown event), None)
      else
        (setKey KeyUnknown (setRune r event), None)
  else
    match walk (root p) seq with
    | None => (setKey KeyUnknown event, None)
    | Some node =>
        if negb (key node =? KeyUnknown) then
          (setModifiers (modifier node) (setKey (key node) event), None)
        else
          (setKey KeyUnknown event, None)
    end.

(** [SequenceParser.Parse]. *)
Definition Parse (p : SequenceParser) (seq : list byte) : Event * option error :=
  if Z.of_nat (length seq) =? 0 then
    (Event_zero, Some (Errorf "empty sequence"))
  else
    let event := mkEvent KeyUnknown 0 ModNone now true false in
    if Z.of_nat (length seq) =? 1 then
      let b := utf8.at_ seq 0 in
      if b =? 27 then (setKey KeyEscape event, None)
      else if (1 <=? b) && (b <=? 26) then
        (setModifiers ModCtrl (setKey (ctrlCharToKey b) event), None)
      else if b =? 9 then (setRune 9 (setKey KeyTab event), None)
      else if b =? 13 then (setRune 13 (setKey KeyEnter event), None)
      else if (b =? 127) || (b =? 8) then (setKey KeyBackspace event, None)
      else if b =? 32 then (setRune 32 (setKey KeySpace event), None)
      else if (32 <=? b) && (b <=? 126) then
        (setKey (runeToKey b) (setRune b event), None)
      else if b >=? 128 then Parse_multi p event seq
      else (setKey KeyUnknown event, None)
    else Parse_multi p event seq.

End Clock.



(* ===================================================================== *)
(** ** input/backend_unix_darwin.go *)
(* ===================================================================== *)

(** [unix.Termios]: the flag words and the control-character array. *)
Record Termios := mkTermios {
  Iflag : Z;
  Oflag : Z;
  Cflag : Z;
  Lflag : Z;
  Cc : list Z
}.

#[global] Instance Termios_eq_dec : EqDecision Termios.
Proof. solve_decision. Defined.

(** Constants of [golang.org/x/sys/unix] for darwin. *)
Module unix.
Definition ICANON := 256.   (* 0x100 *)
Definition ECHO := 8.       (* 0x8 *)
Definition ISIG := 128.     (* 0x80 *)
Definition IEXTEN := 1024.  (* 0x400 *)
Definition INPCK := 16.     (* 0x10 *)
Definition ISTRIP := 32.    (* 0x20 *)
Definition ICRNL := 256.    (* 0x100 *)
Definition OPOST := 1.      (* 0x1 *)
Definition CSIZE := 768.    (* 0x300 *)
Definition CS8 := 768.      (* 0x300 *)
Definition VMIN : nat := 16.
Definition VTIME : nat := 17.
Definition ENOTTY := 25.
End unix.

(** What one [b.file.Read(buf)] can meet on the device: bytes that have
    arrived, a stretch of one read deadline in which nothing arrives, or
    a failure reported by the operating system. *)
Inductive ReadOutcome :=
| Chunk (data : list byte)
| Idle
| Fail (e : error).

(** The terminal behind [os.Stdin]: its mode ([None] when the descriptor
    is not a terminal, so that the termios ioctls fail) and what the
    coming reads will meet. *)
Record File := mkFile {
  termios : option Termios;
  incoming : list ReadOutcome
}.

(** [buf] is 256 bytes long. *)
Definition bufLen : nat := 256.

(** [file.Read(buf)]: the bytes [buf[:n]], the error and the device
    afterwards. [timed] tells whether a read deadline is set: a read with
    a deadline gives up on an idle stretch, a read without one waits
    through it. A read on an exhausted stream reports [io.EOF]. *)
Fixpoint File_Read (timed : bool) (inc : list ReadOutcome)
    : list byte * option error * list ReadOutcome :=
  match inc with
  | [] => ([], Some io_EOF, [])
  | Chunk d :: rest =>
      if (length d <=? bufLen)%nat then (d, None, rest)
      else (take bufLen d, None, Chunk (drop bufLen d) :: rest)
  | Idle :: rest =>
      if timed then ([], Some os_ErrDeadlineExceeded, rest)
      else File_Read timed rest
  | Fail e :: rest => ([], Some e, rest)
  end.

(** [unix.IoctlGetTermios] and [unix.IoctlSetTermios]. *)
Definition IoctlGetTermios (f : File) : Termios + error :=
  match termios f with
  | Some t => inl t
  | None => inr (syscall_Errno unix.ENOTTY)
  end.

Definition IoctlSetTermios (f : File) (t : Termios) : File + error :=
  match termios f with
  | Some _ => inl (mkFile (Some t) (incoming f))
  | None => inr (syscall_Errno unix.ENOTTY)
  end.

Record unixBackend := mkUnixBackend {
  fd : Z;
  originalState : option Termios;
  parser : SequenceParser;
  file : File;
  initialized : bool;
  pendingBuf : list byte
}.

Definition set_originalState (o : option Termios) (b : unixBackend) :=
  mkUnixBackend (fd b) o (parser b) (file b) (initialized b) (pendingBuf b).
Definition set_file (f : File) (b : unixBackend) :=
  mkUnixBackend (fd b) (originalState b) (parser b) f (initialized b) (pendingBuf b).
Definition set_initialized (i : bool) (b : unixBackend) :=
  mkUnixBackend (fd b) (originalState b) (parser b) (file b) i (pendingBuf b).
Definition set_pendingBuf (p : list byte) (b : unixBackend) :=
  mkUnixBackend (fd b) (originalState b) (parser b) (file b) (initialized b) p.

(** [newBackend], on the terminal [stdin]. *)
Definition newBackend (stdin : File) : unixBackend :=
  mkUnixBackend 0 None NewSequenceParser stdin false [].

(** The raw mode [Init] derives from the saved state. *)
Definition rawState (state : Termios) : Termios :=
  let lflag :=
    Z.ldiff (Z.ldiff (Z.ldiff (Z.ldiff (Lflag state) unix.ICANON) unix.ECHO)
                     unix.ISIG) unix.IEXTEN in
  let iflag :=
    Z.ldiff (Z.ldiff (Z.ldiff (Iflag state) unix.INPCK) unix.ISTRIP) unix.ICRNL in
  let oflag := Z.ldiff (Oflag state) unix.OPOST in
  let cflag := Z.lor (Z.ldiff (Cflag state) unix.CSIZE) unix.CS8 in
  let cc := <[unix.VTIME := 0]> (<[unix.VMIN := 1]> (Cc state)) in
  mkTermios iflag oflag cflag lflag cc.

(** [unixBackend.Init]. *)
Definition unixBackend_Init (b : unixBackend) : option error * unixBackend :=
  if initialized b then (None, b)
  else
    match IoctlGetTermios (file b) with
    | inr err => (Some (ErrorfW "failed to get terminal state" err), b)
    | inl state =>
        let b1 := set_originalState (Some state) b in
        match IoctlSetTermios (file b1) (rawState state) with
        | inr err => (Some (ErrorfW "failed to set raw mode" err), b1)
        | inl f => (None, set_initialized true (set_file f b1))
        end
    end.

(** [unixBackend.Restore]. *)
Definition unixBackend_Restore (b : unixBackend) : option error * unixBackend :=
  match originalState b with
  | None => (None, b)
  | Some orig =>
      match IoctlSetTermios (file b) orig with
      | inr err => (Some (ErrorfW "failed to restore terminal state" err), b)
      | inl f => (None, set_file f b)
      end
  end.

(** [b.file.Read(buf)] on the backend's file, without a deadline. *)
Definition Read (b : unixBackend) : list byte * option error * unixBackend :=
  let '(data, err, inc) := File_Read false (incoming (file b)) in
  (data, err, set_file (mkFile (termios (file b)) inc) b).

(** [readWithTimeout]: the same read under a 50 ms deadline. *)
Definition readWithTimeout (b : unixBackend) : list byte * option error * unixBackend :=
  let '(data, err, inc) := File_Read true (incoming (file b)) in
  (data, err, set_file (mkFile (termios (file b)) inc) b).

(** [b.pendingBuf = append(b.pendingBuf, buf[:n]...)]. *)
Definition appendPending (data : list byte) (b : unixBackend) : unixBackend :=
  set_pendingBuf (pendingBuf b ++ data) b.

Definition lenPending (b : unixBackend) : Z := Z.of_nat (length (pendingBuf b)).

(** The loop [for len(b.pendingBuf) < 16 { ... }] of [ReadEvent]. Every
    pass that does not break appends at least one byte, so [fuel] = 16
    passes always reach the exit. *)
Fixpoint escapeLoop (fuel : nat) (b : unixBackend) : unixBackend :=
  match fuel with
  | O => b
  | S fuel' =>
      if lenPending b <? 16 then
        let '(data, err, b1) := readWithTimeout b in
        match err with
        | Some _ => b1
        | None =>
            if Z.of_nat (length data) =? 0 then b1
            else escapeLoop fuel' (appendPending data b1)
        end
      else b
  end.

(** The block "For UTF-8, check if we have a complete character" of
    [ReadEvent]: at most one more read, under a deadline. *)
Definition readMoreUTF8 (b1 : unixBackend) : unixBackend :=
  if (0 <? lenPending b1) && (utf8.at_ (pendingBuf b1) 0 >=? 128)
     && negb (utf8.at_ (pendingBuf b1) 0 =? 27) then
    if negb (utf8.FullRune (pendingBuf b1)) then
      if lenPending b1 <? utf8.UTFMax then
        let '(data, err, b') := readWithTimeout b1 in
        match err with
        | None =>
            if 0 <? Z.of_nat (length data) then appendPending data b' else b'
        | Some _ => b'
        end
      else b1
    else b1
  else b1.

(** The block "For escape sequences, continue reading until timeout". *)
Definition readMoreEscape (b2 : unixBackend) : unixBackend :=
  if (0 <? lenPending b2) && (utf8.at_ (pendingBuf b2) 0 =? 27) then
    escapeLoop 16 b2
  else b2.

Section ReadClock.

(** The reading [time.Now()] returns inside the [Parse] calls. *)
Variable now : Time.

(** [Parse] on the accumulated bytes and the block "Handle incomplete
    UTF-8 by trying to read more". *)
Definition parseAndRetry (b3 : unixBackend) : Event * option error * unixBackend :=
  let '(event, err) := Parse now (parser b3) (pendingBuf b3) in
  match err with
  | Some e =>
      if String.eqb (error_Error e) "incomplete UTF-8 sequence" then
        if lenPending b3 <? utf8.UTFMax then
          let '(data, readErr, b') := readWithTimeout b3 in
          match readErr with
          | None =>
              if 0 <? Z.of_nat (length data) then
                let b'' := appendPending data b' in
                (Parse now (parser b'') (pendingBuf b''), b'')
              else (event, err, b')
          | Some _ => (event, err, b')
          end
        else (event, err, b3)
      else (event, err, b3)
  | None => (event, err, b3)
  end.

(** [unixBackend.ReadEvent]: the first, blocking read; the copy into
    [pendingBuf]; the two blocks that read on; the parse with its retry;
    and [b.pendingBuf = b.pendingBuf[:0]]. *)
Definition unixBackend_ReadEvent (b : unixBackend)
    : Event * option error * unixBackend :=
  let '(data, err, b0) := Read b in
  match err with
  | Some e => (Event_zero, Some e, b0)
  | None =>
      let b1 := appendPending data b0 in
      let b2 := readMoreUTF8 b1 in
      let b3 := readMoreEscape b2 in
      let '(event, err, b4) := parseAndRetry b3 in
      (event, err, set_pendingBuf [] b4)
  end.

End ReadClock.

(** A device on which the next read under a deadline brings no byte. *)
Definition quiet (rest : list ReadOutcome) : bool :=
  match rest with
  | Chunk (_ :: _) :: _ => false
  | _ => true
  end.

(** What is left of the device after one read under a deadline. *)
Definition afterQuiet (rest : list ReadOutcome) : list ReadOutcome :=
  snd (File_Read true rest).

(** The backend that holds [pb] in its accumulator, with [inc] to come. *)
Definition holding (fd : Z) (o : option Termios) (p : SequenceParser)
    (t : option Termios) (ini : bool) (pb : list byte)
    (inc : list ReadOutcome) : unixBackend :=
  mkUnixBackend fd o p (mkFile t inc) ini pb.

(** A terminal in its usual line mode, and a backend on it. *)
Definition cookedTermios : Termios :=
  mkTermios 11010 3 19200 1483 (replicate 20 0).

Definition terminal (inc : list ReadOutcome) : File :=
  mkFile (Some cookedTermios) inc.

(* ===================================================================== *)
(** ** input/input.go: the Backend interface *)
(* ===================================================================== *)

Class Backend (B : Type) := {
  Init : B -> option error * B;
  Restore : B -> option error * B;
  ReadEvent : B -> Event * option error * B
}.

(** The darwin backend implements the interface; [now] is the clock
    reading its [Parse] calls see. *)
Definition unixBackend_Backend (now : Time) : Backend unixBackend := {|
  Init := unixBackend_Init;
  Restore := unixBackend_Restore;
  ReadEvent := unixBackend_ReadEvent now
|}.

(** The same with the clock at zero, for the runs evaluated below. *)
Definition darwinBackend : Backend unixBackend := unixBackend_Backend 0.

(** The backend as [Init] leaves it on [terminal inc]. *)
Definition rawBackend (inc : list ReadOutcome) : unixBackend :=
  mkUnixBackend 0 (Some cookedTermios) NewSequenceParser
    (mkFile (Some (rawState cookedTermios)) inc) true [].

(** The error a failing device read reports ([EIO]). *)
Definition EIO : error := syscall_Errno 5.

(* ===================================================================== *)
(** ** input/impl.go *)
(* ===================================================================== *)

(** A buffered Go channel: the queued values (oldest first), the capacity
    and whether [close] has been called. *)
Record chan (A : Type) := mkChan {
  buf : list A;
  cap : nat;
  closed : bool
}.
Arguments mkChan {A}.
Arguments buf {A}.
Arguments cap {A}.
Arguments closed {A}.

(** Where the goroutine running [captureLoop] stands. Its only local
    variable is [consecutiveErrors]; while it waits in the [select] that
    sends, it holds the event it has read. *)
Inductive captureState :=
| NotSpawned
| LoopHead (consecutiveErrors : Z)
| Backoff (consecutiveErrors : Z)
| Sending (event : Event)
| Exited
| Panicked.

(** [inputImpl]. [done] is a [chan struct{}] that is never sent on, only
    closed: [true] means closed. [stopOnce] is [true] once [Do] has run
    its function. [capture] is the goroutine [Start] spawns; [mu] only
    serialises field access and has no state of its own here. *)
Record inputImpl {B : Type} := mkInput {
  backend : B;
  events : chan Event;
  done : bool;
  wg : nat;
  keyState : gmap Key bool;
  started : bool;
  stopping : bool;
  stopOnce : bool;
  capture : captureState
}.
Arguments inputImpl B : clear implicits.
Arguments mkInput {B}.

Section Impl.

Context {B : Type} {BB : Backend B}.

Local Abbreviation impl := (inputImpl B).

Definition set_backend (b : B) (i : impl) : impl :=
  mkInput b (events i) (done i) (wg i) (keyState i) (started i) (stopping i)
          (stopOnce i) (capture i).
Definition set_events (c : chan Event) (i : impl) : impl :=
  mkInput (backend i) c (done i) (wg i) (keyState i) (started i) (stopping i)
          (stopOnce i) (capture i).
Definition set_done (d : bool) (i : impl) : impl :=
  mkInput (backend i) (events i) d (wg i) (keyState i) (started i) (stopping i)
          (stopOnce i) (capture i).
Definition set_wg (n : nat) (i : impl) : impl :=
  mkInput (backend i) (events i) (done i) n (keyState i) (started i) (stopping i)
          (stopOnce i) (capture i).
Definition set_keyState (m : gmap Key bool) (i : impl) : impl :=
  mkInput (backend i) (events i) (done i) (wg i) m (started i) (stopping i)
          (stopOnce i) (capture i).
Definition set_started (s : bool) (i : impl) : impl :=
  mkInput (backend i) (events i) (done i) (wg i) (keyState i) s (stopping i)
          (stopOnce i) (capture i).
Definition set_stopping (s : bool) (i : impl) : impl :=
  mkInput (backend i) (events i) (done i) (wg i) (keyState i) (started i) s
          (stopOnce i) (capture i).
Definition set_stopOnce (s : bool) (i : impl) : impl :=
  mkInput (backend i) (events i) (done i) (wg i) (keyState i) (started i)
          (stopping i) s (capture i).
Definition set_capture (c : captureState) (i : impl) : impl :=
  mkInput (backend i) (events i) (done i) (wg i) (keyState i) (started i)
          (stopping i) (stopOnce i) c.

(** [New], around the backend [newBackend()] returns. *)
Definition New (b : B) : impl :=
  mkInput b (mkChan [] 100 false) false 0 ∅ false false false NotSpawned.

(** [Start]. *)
Definition Start (i : impl) : option error * impl :=
  if started i then (Some (Errorf "input already started"), i)
  else
    match Init (backend i) with
    | (Some err, b) =>
        (Some (ErrorfW "failed to initialize backend" err), set_backend b i)
    | (None, b) =>
        (* in.wg.Add(1); go in.captureLoop() *)
        let i1 := set_capture (LoopHead 0) (set_wg (S (wg i)) (set_backend b i)) in
        (None, set_started true i1)
    end.

(** [updateKeyState]. *)
Definition updateKeyState (event : Event) (i : impl) : impl :=
  if EPressed event then set_keyState (<[EKey event := true]> (keyState i)) i
  else set_keyState (<[EKey event := false]> (keyState i)) i.

(** [IsPressed]: a Go map answers [false] for a key it does not hold. *)
Definition IsPressed (k : Key) (i : impl) : bool :=
  match keyState i !! k with
  | Some v => v
  | None => false
  end.

(** A receive from [in.events] can proceed when a value is queued or the
    channel is closed. *)
Definition recvReady (c : chan Event) : bool :=
  match buf c with
  | [] => closed c
  | _ :: _ => true
  end.

(** [Poll]. [None] means that the call is still blocked in its [select].
    When both cases are ready Go picks one at random: [pick] is that
    choice ([true] for the receive). *)
Definition Poll (pick : bool) (i : impl) : option (Event * bool * impl) :=
  let recv :=
    match buf (events i) with
    | event :: rest =>
        let i1 := set_events (mkChan rest (cap (events i)) (closed (events i))) i in
        Some (event, true, updateKeyState event i1)
    | [] => Some (Event_zero, false, i)     (* closed: ok is false *)
    end in
  match recvReady (events i), done i with
  | false, false => None
  | true, false => recv
  | false, true => Some (Event_zero, false, i)
  | true, true => if pick then recv else Some (Event_zero, false, i)
  end.

(** [Next]: [None] is the [nil] pointer. A receive from a closed and
    drained channel yields the zero [Event]. *)
Definition Next (i : impl) : option Event * impl :=
  if recvReady (events i) then
    match buf (events i) with
    | event :: rest =>
        let i1 := set_events (mkChan rest (cap (events i)) (closed (events i))) i in
        (Some event, updateKeyState event i1)
    | [] => (Some Event_zero, updateKeyState Event_zero i)
    end
  else (None, i).

(** [defer in.wg.Done()] followed by the goroutine's end. *)
Definition captureExit (i : impl) : impl :=
  set_capture Exited (set_wg (pred (wg i)) i).

Definition maxConsecutiveErrors : Z := 10.

(** One move of the goroutine running [captureLoop]: from the loop head
    through [ReadEvent] to the next [select], out of the back-off
    [select], or out of the sending [select]. [pick] resolves a [select]
    whose two cases are both ready ([true] for the send). A state that is
    returned unchanged means the goroutine is blocked or gone. *)
Definition captureStep (pick : bool) (i : impl) : impl :=
  match capture i with
  | NotSpawned | Exited | Panicked => i
  | LoopHead consecutiveErrors =>
      if done i then captureExit i
      else
        let '(event, err, b) := ReadEvent (backend i) in
        let i1 := set_backend b i in
        match err with
        | Some e =>
            if decide (e = io_EOF) then captureExit i1
            else
              let consecutiveErrors := consecutiveErrors + 1 in
              if consecutiveErrors >=? maxConsecutiveErrors then captureExit i1
              else set_capture (Backoff consecutiveErrors) i1
        | None => set_capture (Sending event) i1
        end
  | Backoff consecutiveErrors =>
      if done i then captureExit i
      else set_capture (LoopHead consecutiveErrors) i
  | Sending event =>
      let room := (length (buf (events i)) <? cap (events i))%nat in
      let send :=
        if closed (events i) then set_capture Panicked i
        else
          set_capture (LoopHead 0)
            (set_events (mkChan (buf (events i) ++ [event]) (cap (events i)) false) i) in
      match room || closed (events i), done i with
      | false, false => i
      | true, false => send
      | false, true => captureExit i
      | true, true => if pick then send else captureExit i
      end
  end.

(** [in.wg.Wait()]: the caller sleeps while the capture goroutine moves;
    [true] when the counter has reached zero. With [done] closed the
    goroutine needs at most two moves to leave. *)
Fixpoint wgWait (fuel : nat) (pick : bool) (i : impl) : bool * impl :=
  if (wg i =? 0)%nat then (true, i)
  else
    match fuel with
    | O => (false, i)
    | S fuel' => wgWait fuel' pick (captureStep pick i)
    end.

(** [Stop]. The boolean tells whether the call returns; it does not when
    [wg.Wait()] never sees the counter at zero. *)
Definition Stop (pick : bool) (i : impl) : bool * impl :=
  if stopOnce i then (true, i)
  else
    let i0 := set_stopOnce true i in
    if negb (started i0) then (true, i0)
    else
      let i1 := set_stopping true i0 in
      (* close(in.done) *)
      let i2 := set_done true i1 in
      match wgWait 2 pick i2 with
      | (false, i3) => (false, i3)
      | (true, i3) =>
          let '(_, b) := Restore (backend i3) in
          let i4 := set_started false (set_backend b i3) in
          (* close(in.events); for range in.events {} *)
          (true, set_events (mkChan [] (cap (events i4)) true) i4)
      end.

(** The calls and moves that make a run of the system. *)
Inductive Op :=
| OpStart
| OpStop (pick : bool)
| OpPoll (pick : bool)
| OpNext
| OpCapture (pick : bool).

Definition step (i : impl) (o : Op) : impl :=
  match o with
  | OpStart => snd (Start i)
  | OpStop pick => snd (Stop pick i)
  | OpPoll pick =>
      match Poll pick i with
      | Some (_, _, i') => i'
      | None => i
      end
  | OpNext => snd (Next i)
  | OpCapture pick => captureStep pick i
  end.

Definition run (ops : list Op) (i : impl) : impl := fold_left step ops i.

(** [n] moves of the capture goroutine in a row. *)
Fixpoint captureSteps (n : nat) (pick : bool) (i : impl) : impl :=
  match n with
  | O => i
  | S n' => captureSteps n' pick (captureStep pick i)
  end.

(** [failsN n b b']: [n] calls of [ReadEvent] in a row, starting on [b],
    each return an error other than [io.EOF], and leave [b']. *)
Fixpoint failsN (n : nat) (b b' : B) : Prop :=
  match n with
  | O => b' = b
  | S n' => exists ev e b1,
      ReadEvent b = (ev, Some e, b1) /\ e <> io_EOF /\ failsN n' b1 b'
  end.

(** No [Start] in the run [ops] from [i] succeeds. *)
Fixpoint noStartSucceeded (ops : list Op) (i : impl) : Prop :=
  match ops with
  | [] => True
  | o :: ops' =>
      (o = OpStart -> fst (Start i) <> None) /\ noStartSucceeded ops' (step i o)
  end.

(** The capture goroutine exists and has not returned. *)
Definition live (c : captureState) : bool :=
  match c with
  | LoopHead _ | Backoff _ | Sending _ => true
  | NotSpawned | Exited | Panicked => false
  end.

(** What holds of every state a run from [New] reaches. *)
Record Inv (i : impl) : Prop := mkInv {
  inv_wg : wg i = if live (capture i) then 1%nat else 0%nat;
  inv_panic : capture i <> Panicked;
  inv_closed : closed (events i) = true -> done i = true /\ buf (events i) = [];
  inv_done : done i = true -> stopOnce i = true /\ closed (events i) = true /\
             match capture i with Backoff _ | Sending _ => False | _ => True end;
  inv_started : started i = false -> live (capture i) = false
}.

(** The state of an instance on which no [Start] has succeeded yet. *)
Definition Pristine (i : impl) : Prop :=
  capture i = NotSpawned /\ keyState i = ∅ /\ buf (events i) = []
  /\ closed (events i) = false /\ done i = false /\ started i = false.

End Impl.

(* ===================================================================== *)
(** * Properties *)
(* ===================================================================== *)

(** ** Bytes and bitwise arithmetic *)

Lemma bv_range (b : byte) : 0 <= bv b <= 255.
Proof. destruct b; vm_compute; split; discriminate. Qed.

Lemma to_byte_bv (b : byte) : to_byte (bv b) = b.
Proof. destruct b; reflexivity. Qed.

Lemma bv_to_byte (z : Z) : bv (to_byte z) = z mod 256.
Proof.
  unfold bv, to_byte.
  assert (H : 0 <= z mod 256 < 256) by (apply Z.mod_pos_bound; lia).
  destruct (Byte.of_N (Z.to_N (z mod 256))) eqn:E.
  - apply Byte.to_of_N in E. rewrite E. lia.
  - apply Byte.of_N_None_iff in E. lia.
Qed.

Lemma bv_to_byte_small (z : Z) : 0 <= z < 256 -> bv (to_byte z) = z.
Proof. intros H. rewrite bv_to_byte. apply Z.mod_small. exact H. Qed.

(** Bitwise or of a multiple of [2^k] and a number below [2^k] is their sum. *)
Lemma lor_add (a b k : Z) :
  0 <= k -> a mod 2 ^ k = 0 -> 0 <= b < 2 ^ k -> Z.lor a b = a + b.
Proof.
  intros Hk Ha Hb.
  assert (Hland : Z.land a b = 0).
  { apply Z.bits_inj'. intros n Hn. rewrite Z.land_spec, Z.bits_0.
    destruct (Z.lt_ge_cases n k) as [Hlt | Hge].
    - replace (Z.testbit a n) with false; [reflexivity |].
      symmetry. 
      assert (a = Z.shiftl (a / 2 ^ k) k) as ->.
      { rewrite Z.shiftl_mul_pow2 by lia.
        pose proof (Z.div_mod a (2 ^ k)). lia. }
      apply Z.shiftl_spec_low. exact Hlt.
    - replace (Z.testbit b n) with false; [apply andb_false_r |].
      symmetry. destruct (Z.eq_dec b 0) as [-> | Hb0]; [apply Z.bits_0 |].
      apply Z.bits_above_log2; [lia |].
      apply Z.log2_lt_pow2; [lia |].
      apply Z.lt_le_trans with (2 ^ k); [lia |].
      apply Z.pow_le_mono_r; lia. }
  pose proof (Z.add_lor_land a b). lia.
Qed.

Lemma land_63 (a : Z) : Z.land a 63 = a mod 64.
Proof. apply (Z.land_ones a 6). lia. Qed.
Lemma land_31 (a : Z) : Z.land a 31 = a mod 32.
Proof. apply (Z.land_ones a 5). lia. Qed.
Lemma land_15 (a : Z) : Z.land a 15 = a mod 16.
Proof. apply (Z.land_ones a 4). lia. Qed.
Lemma land_7 (a : Z) : Z.land a 7 = a mod 8.
Proof. apply (Z.land_ones a 3). lia. Qed.

Ltac dm := Z.to_euclidean_division_equations; lia.

Ltac bytes_eq :=
  repeat (apply (f_equal2 (@cons byte)); [apply (f_equal to_byte); dm |]);
  reflexivity.

(** ** unicode/utf8: encoding and decoding *)

Lemma encode2 V : 128 <= V <= 2047 ->
  utf8.EncodeRune V = [to_byte (192 + V / 64); to_byte (128 + V mod 64)].
Proof.
  intros H. unfold utf8.EncodeRune.
  rewrite (Z.mod_small V) by lia.
  unfold utf8.rune1Max, utf8.rune2Max.
  destruct (Z.leb_spec V 127); [lia |].
  destruct (Z.leb_spec V 2047); [| lia].
  unfold utf8.t2, utf8.tx, utf8.maskx.
  rewrite Z.shiftr_div_pow2 by lia.
  rewrite !bv_to_byte.
  rewrite !land_63.
  rewrite (lor_add 192 _ 6) by (change (2 ^ 6) with 64; dm).
  rewrite (lor_add 128 _ 6) by (change (2 ^ 6) with 64; dm).
  bytes_eq.
Qed.

Lemma encode3 V : (2048 <= V < 55296 \/ 57343 < V <= 65535) ->
  utf8.EncodeRune V =
    [to_byte (224 + V / 4096); to_byte (128 + (V / 64) mod 64);
     to_byte (128 + V mod 64)].
Proof.
  intros H. unfold utf8.EncodeRune.
  rewrite (Z.mod_small V) by lia.
  unfold utf8.rune1Max, utf8.rune2Max, utf8.rune3Max, utf8.surrogateMin,
    utf8.surrogateMax.
  destruct (Z.leb_spec V 127); [lia |].
  destruct (Z.leb_spec V 2047); [lia |].
  replace ((V <? 55296) || (57343 <? V) && (V <=? 65535)) with true
    by (symmetry; apply orb_true_iff; rewrite andb_true_iff; lia).
  unfold utf8.t3, utf8.tx, utf8.maskx.
  rewrite !Z.shiftr_div_pow2 by lia.
  rewrite !bv_to_byte, !land_63.
  change (2 ^ 12) with 4096. change (2 ^ 6) with 64.
  rewrite (lor_add 224 _ 4) by (change (2 ^ 4) with 16; dm).
  rewrite !(lor_add 128 _ 6) by (change (2 ^ 6) with 64; dm).
  bytes_eq.
Qed.

Lemma encode4 V : 65536 <= V <= 1114111 ->
  utf8.EncodeRune V =
    [to_byte (240 + V / 262144); to_byte (128 + (V / 4096) mod 64);
     to_byte (128 + (V / 64) mod 64); to_byte (128 + V mod 64)].
Proof.
  intros H. unfold utf8.EncodeRune.
  rewrite (Z.mod_small V) by lia.
  unfold utf8.rune1Max, utf8.rune2Max, utf8.rune3Max, utf8.surrogateMin,
    utf8.surrogateMax, utf8.MaxRune.
  destruct (Z.leb_spec V 127); [lia |].
  destruct (Z.leb_spec V 2047); [lia |].
  replace ((V <? 55296) || (57343 <? V) && (V <=? 65535)) with false
    by (symmetry; apply orb_false_iff; rewrite andb_false_iff; lia).
  replace ((65535 <? V) && (V <=? 1114111)) with true
    by (symmetry; apply andb_true_iff; lia).
  unfold utf8.t4, utf8.tx, utf8.maskx.
  rewrite !Z.shiftr_div_pow2 by lia.
  rewrite !bv_to_byte, !land_63.
  change (2 ^ 18) with 262144. change (2 ^ 12) with 4096. change (2 ^ 6) with 64.
  rewrite (lor_add 240 _ 3) by (change (2 ^ 3) with 8; dm).
  rewrite !(lor_add 128 _ 6) by (change (2 ^ 6) with 64; dm).
  bytes_eq.
Qed.

(** Case analysis on the next comparison of the goal. *)
Ltac zcase :=
  match goal with
  | |- context [?a <=? ?b] => destruct (Z.leb_spec a b); try lia
  | |- context [?a <? ?b] => destruct (Z.ltb_spec a b); try lia
  | |- context [?a =? ?b] => destruct (Z.eqb_spec a b); try lia
  end.

Ltac bcase :=
  first [ zcase
        | match goal with
          | |- context [?a >=? ?b] => rewrite (Z.geb_leb a b)
          end ].

(** The [first] table on each class of lead byte. *)
Lemma first_ascii x : 0 <= x <= 127 -> utf8.first x = utf8.as_.
Proof. intros H. unfold utf8.first. destruct (Z.leb_spec x 127); [reflexivity | lia]. Qed.

Lemma first_invalid x : (128 <= x <= 193 \/ 245 <= x <= 255) -> utf8.first x = utf8.xx.
Proof. intros H. unfold utf8.first. repeat zcase; reflexivity. Qed.

Lemma first_two x : 194 <= x <= 223 -> utf8.first x = utf8.s1.
Proof. intros H. unfold utf8.first. repeat zcase; reflexivity. Qed.

Lemma first_multi x : 194 <= x <= 244 ->
  Z.land (utf8.first x) 7 = (if x <=? 223 then 2 else if x <=? 239 then 3 else 4)
  /\ utf8.lo (utf8.acceptRanges (Z.shiftr (utf8.first x) 4)) = acceptLo x
  /\ utf8.hi (utf8.acceptRanges (Z.shiftr (utf8.first x) 4)) = acceptHi x
  /\ (utf8.first x >=? utf8.as_) = false.
Proof.
  intros H. unfold utf8.first, acceptLo, acceptHi.
  repeat zcase; repeat split; reflexivity.
Qed.

Ltac bytes_back :=
  repeat (apply (f_equal2 (@cons byte));
          [etransitivity; [| apply to_byte_bv]; apply (f_equal to_byte); dm |]);
  reflexivity.

Lemma accept_bounds x : 128 <= acceptLo x /\ acceptHi x <= 191.
Proof. unfold acceptLo, acceptHi. repeat bcase. Qed.

Lemma decode2 b0 b1 rest :
  194 <= bv b0 <= 223 -> 128 <= bv b1 <= 191 ->
  utf8.DecodeRune (b0 :: b1 :: rest) = ((bv b0 - 192) * 64 + (bv b1 - 128), 2).
Proof.
  intros H0 H1.
  destruct (first_multi (bv b0)) as (Hsz & Hlo & Hhi & Has); [lia |].
  unfold utf8.DecodeRune, utf8.at_. cbn [nth length].
  cbv zeta. rewrite Has, Hsz, Hlo, Hhi.
  assert (acceptLo (bv b0) = 128 /\ acceptHi (bv b0) = 191) as [-> ->]
    by (unfold acceptLo, acceptHi; repeat bcase; split; reflexivity).
  unfold utf8.mask2, utf8.maskx.
  rewrite land_31, land_63, Z.shiftl_mul_pow2 by lia.
  change (2 ^ 6) with 64.
  repeat bcase; cbn [orb andb].
  rewrite (lor_add _ _ 6) by (change (2 ^ 6) with 64; dm).
  f_equal; dm.
Qed.

Lemma decode3 b0 b1 b2 rest :
  224 <= bv b0 <= 239 -> acceptLo (bv b0) <= bv b1 <= acceptHi (bv b0) ->
  128 <= bv b2 <= 191 ->
  utf8.DecodeRune (b0 :: b1 :: b2 :: rest)
  = ((bv b0 - 224) * 4096 + (bv b1 - 128) * 64 + (bv b2 - 128), 3).
Proof.
  intros H0 H1 H2.
  destruct (first_multi (bv b0)) as (Hsz & Hlo & Hhi & Has); [lia |].
  unfold utf8.DecodeRune, utf8.at_. cbn [nth length].
  cbv zeta. rewrite Has, Hsz, Hlo, Hhi.
  pose proof (accept_bounds (bv b0)) as Hacc.
  unfold utf8.mask3, utf8.maskx, utf8.locb, utf8.hicb.
  rewrite land_15, !land_63, !Z.shiftl_mul_pow2 by lia.
  change (2 ^ 6) with 64. change (2 ^ 12) with 4096.
  repeat bcase; cbn [orb andb].
  rewrite (lor_add (_ * 4096) _ 12) by (change (2 ^ 12) with 4096; dm).
  rewrite (lor_add _ _ 6) by (change (2 ^ 6) with 64; dm).
  f_equal; dm.
Qed.

Lemma decode4 b0 b1 b2 b3 rest :
  240 <= bv b0 <= 244 -> acceptLo (bv b0) <= bv b1 <= acceptHi (bv b0) ->
  128 <= bv b2 <= 191 -> 128 <= bv b3 <= 191 ->
  utf8.DecodeRune (b0 :: b1 :: b2 :: b3 :: rest)
  = ((bv b0 - 240) * 262144 + (bv b1 - 128) * 4096 + (bv b2 - 128) * 64
     + (bv b3 - 128), 4).
Proof.
  intros H0 H1 H2 H3.
  destruct (first_multi (bv b0)) as (Hsz & Hlo & Hhi & Has); [lia |].
  unfold utf8.DecodeRune, utf8.at_. cbn [nth length].
  cbv zeta. rewrite Has, Hsz, Hlo, Hhi.
  pose proof (accept_bounds (bv b0)) as Hacc.
  unfold utf8.mask4, utf8.maskx, utf8.locb, utf8.hicb.
  rewrite land_7, !land_63, !Z.shiftl_mul_pow2 by lia.
  change (2 ^ 6) with 64. change (2 ^ 12) with 4096. change (2 ^ 18) with 262144.
  repeat bcase; cbn [orb andb].
  rewrite (lor_add (_ * 262144) _ 18) by (change (2 ^ 18) with 262144; dm).
  rewrite (lor_add _ (_ * 64) 12) by (change (2 ^ 12) with 4096; dm).
  rewrite (lor_add _ _ 6) by (change (2 ^ 6) with 64; dm).
  f_equal; dm.
Qed.

Lemma ValidRune_spec V :
  utf8.ValidRune V = true <-> (0 <= V < 55296 \/ 57343 < V <= 1114111).
Proof.
  unfold utf8.ValidRune, utf8.surrogateMin, utf8.surrogateMax, utf8.MaxRune.
  rewrite orb_true_iff, !andb_true_iff. lia.
Qed.

Ltac accept_cases :=
  unfold acceptLo, acceptHi;
  repeat match goal with
  | |- context [?a =? ?b] => destruct (Z.eqb_spec a b)
  end.

Lemma EncodeRune_WellFormed V :
  utf8.ValidRune V = true -> 128 <= V -> WellFormed (utf8.EncodeRune V).
Proof.
  intros HV Hge. apply ValidRune_spec in HV.
  destruct (Z.le_gt_cases V 2047) as [H2 | H2].
  { rewrite encode2 by lia.
    apply WF2; rewrite bv_to_byte_small; dm. }
  destruct (Z.le_gt_cases V 65535) as [H3 | H3].
  { rewrite encode3 by lia.
    apply WF3; rewrite ?bv_to_byte_small; try dm.
    accept_cases; dm. }
  rewrite encode4 by lia.
  apply WF4; rewrite ?bv_to_byte_small; try dm.
  accept_cases; dm.
Qed.

Lemma DecodeRune_EncodeRune V :
  utf8.ValidRune V = true -> 128 <= V ->
  utf8.DecodeRune (utf8.EncodeRune V)
  = (V, Z.of_nat (length (utf8.EncodeRune V))).
Proof.
  intros HV Hge. pose proof (EncodeRune_WellFormed V HV Hge) as Hwf.
  apply ValidRune_spec in HV.
  destruct (Z.le_gt_cases V 2047) as [H2 | H2].
  { rewrite encode2 in * by lia. inversion Hwf; subst.
    rewrite decode2 by assumption.
    rewrite !bv_to_byte_small by dm. f_equal. dm. }
  destruct (Z.le_gt_cases V 65535) as [H3 | H3].
  { rewrite encode3 in * by lia. inversion Hwf; subst.
    rewrite decode3 by assumption.
    rewrite !bv_to_byte_small by dm. f_equal. dm. }
  rewrite encode4 in * by lia. inversion Hwf; subst.
  rewrite decode4 by assumption.
  rewrite !bv_to_byte_small by dm. f_equal. dm.
Qed.

(** Every well-formed sequence is the encoding of the scalar value it
    decodes to. *)
Lemma WellFormed_EncodeRune p :
  WellFormed p ->
  exists V, utf8.ValidRune V = true /\ 128 <= V /\ utf8.EncodeRune V = p.
Proof.
  intros Hwf. destruct Hwf as [b0 b1 H0 H1 | b0 b1 b2 H0 H1 H2 | b0 b1 b2 b3 H0 H1 H2 H3].
  - exists ((bv b0 - 192) * 64 + (bv b1 - 128)).
    split; [apply ValidRune_spec; lia |]. split; [lia |].
    rewrite encode2 by lia.
    bytes_back.
  - set (V := (bv b0 - 224) * 4096 + (bv b1 - 128) * 64 + (bv b2 - 128)).
    pose proof (accept_bounds (bv b0)) as Hacc.
    assert (HV : 2048 <= V < 55296 \/ 57343 < V <= 65535).
    { subst V. revert H1. accept_cases; lia. }
    exists V. split; [apply ValidRune_spec; lia |]. split; [lia |].
    rewrite encode3 by lia.
    subst V. bytes_back.
  - set (V := (bv b0 - 240) * 262144 + (bv b1 - 128) * 4096
              + (bv b2 - 128) * 64 + (bv b3 - 128)).
    pose proof (accept_bounds (bv b0)) as Hacc.
    assert (HV : 65536 <= V <= 1114111).
    { subst V. revert H1. accept_cases; lia. }
    exists V. split; [apply ValidRune_spec; lia |]. split; [lia |].
    rewrite encode4 by lia.
    subst V. bytes_back.
Qed.

Lemma first_size_small x : 0 <= x <= 255 -> ~ (194 <= x <= 244) ->
  Z.land (utf8.first x) 7 <= 1.
Proof.
  intros H Hn. unfold utf8.first. repeat bcase; vm_compute; discriminate.
Qed.

Lemma FullRune_short b0 q :
  ~ (194 <= bv b0 <= 244) -> utf8.FullRune (b0 :: q) = true.
Proof.
  intros Hn. pose proof (first_size_small (bv b0) (bv_range b0) Hn) as Hsz.
  unfold utf8.FullRune, utf8.at_. cbn [length nth]. cbv zeta.
  destruct (Z.eqb_spec (Z.of_nat (S (length q))) 0); [lia |].
  rewrite Z.geb_leb.
  destruct (Z.leb_spec (Z.land (utf8.first (bv b0)) 7) (Z.of_nat (S (length q))));
    [reflexivity | lia].
Qed.

Ltac full_rune_cases :=
  unfold utf8.FullRune, utf8.at_; cbn [length nth app]; cbv zeta;
  match goal with
  | |- context [utf8.first (bv ?b)] =>
      let Hsz := fresh "Hsz" in let Hlo := fresh "Hlo" in
      let Hhi := fresh "Hhi" in let Has := fresh "Has" in
      destruct (first_multi (bv b)) as (Hsz & Hlo & Hhi & Has); [lia |];
      rewrite Hsz, ?Hlo, ?Hhi
  end;
  unfold utf8.locb, utf8.hicb;
  repeat bcase; cbn [orb andb].

Lemma WellFormed_FullRune p : WellFormed p -> utf8.FullRune p = true.
Proof.
  intros Hwf.
  destruct Hwf; pose proof (accept_bounds (bv b0)); full_rune_cases; reflexivity.
Qed.

Lemma WellFormed_lead p :
  WellFormed p -> 194 <= utf8.at_ p 0 <= 244 /\ (2 <= length p <= 4)%nat.
Proof. intros Hwf. destruct Hwf; unfold utf8.at_; cbn [nth length]; lia. Qed.

Lemma prefix_not_FullRune q rest :
  WellFormed (q ++ rest) -> q <> [] -> rest <> [] -> utf8.FullRune q = false.
Proof.
  intros Hwf Hq Hrest. remember (q ++ rest) as p eqn:Hp.
  destruct Hwf; pose proof (accept_bounds (bv b0)) as Hacc;
    destruct q as [| c0 [| c1 [| c2 [| c3 q]]]];
    destruct rest as [| r0 rest]; try congruence;
    cbn [app] in Hp; simplify_eq;
    try (match goal with H : [] = ?l ++ _ :: _ |- _ => destruct l; discriminate H end);
    full_rune_cases; reflexivity.
Qed.

Lemma accept_nonempty x : acceptLo x <= acceptHi x.
Proof. accept_cases; lia. Qed.

Ltac try_rest r :=
  exists r; split; [discriminate |];
  cbn [app]; constructor; change (bv x80) with 128;
  rewrite ?bv_to_byte_small
    by (match goal with |- context [acceptLo ?x] =>
          pose proof (accept_bounds x); pose proof (accept_nonempty x) end; lia);
  try match goal with |- context [acceptLo ?x] =>
          pose proof (accept_bounds x); pose proof (accept_nonempty x) end;
  lia.

Lemma not_FullRune_completes q :
  q <> [] -> utf8.FullRune q = false ->
  exists rest, rest <> [] /\ WellFormed (q ++ rest).
Proof.
  intros Hq Hfull. destruct q as [| b0 q]; [congruence |].
  assert (Hlead : 194 <= bv b0 <= 244).
  { destruct (Z_le_dec 194 (bv b0)); destruct (Z_le_dec (bv b0) 244);
      try lia; rewrite FullRune_short in Hfull by lia; discriminate. }
  revert Hfull.
  destruct q as [| b1 [| b2 [| b3 q]]];
    full_rune_cases; intros Hfull; try discriminate Hfull;
    solve [ try_rest [x80] | try_rest [x80; x80] | try_rest [x80; x80; x80]
          | try_rest [to_byte (acceptLo (bv b0)); x80]
          | try_rest [to_byte (acceptLo (bv b0)); x80; x80] ].
Qed.

(** ** The parser on UTF-8 input *)

Lemma Parse_multi_not_full p ev seq :
  128 <= utf8.at_ seq 0 -> seq <> [] -> utf8.FullRune seq = false ->
  Parse_multi p ev seq = (Event_zero, Some (Errorf "incomplete UTF-8 sequence")).
Proof.
  intros Hlead Hne Hfull. unfold Parse_multi. rewrite Hfull.
  destruct seq as [| b0 q]; [congruence |]. cbn [length].
  repeat bcase; reflexivity.
Qed.

Lemma Parse_lead_multi now p seq :
  128 <= utf8.at_ seq 0 -> seq <> [] ->
  Parse now p seq
  = Parse_multi p (mkEvent KeyUnknown 0 ModNone now true false) seq.
Proof.
  intros Hlead Hne. unfold Parse.
  destruct seq as [| b0 q]; [congruence |]. cbn [length].
  destruct (Z.eqb_spec (Z.of_nat (S (length q))) 0); [lia |].
  cbv zeta.
  destruct (Z.eqb_spec (Z.of_nat (S (length q))) 1); [| reflexivity].
  repeat bcase; cbn [orb andb]; try reflexivity.
Qed.

Lemma Parse_EncodeRune now p V :
  utf8.ValidRune V = true -> 128 <= V ->
  Parse now p (utf8.EncodeRune V)
  = (mkEvent KeyUnknown V ModNone now true false, None).
Proof.
  intros HV Hge.
  pose proof (EncodeRune_WellFormed V HV Hge) as Hwf.
  destruct (WellFormed_lead _ Hwf) as [Hlead Hlen].
  assert (Hne : utf8.EncodeRune V <> []).
  { intros E. rewrite E in Hlen. cbn in Hlen. lia. }
  rewrite Parse_lead_multi by (assumption || lia).
  unfold Parse_multi.
  rewrite (WellFormed_FullRune _ Hwf), DecodeRune_EncodeRune by assumption.
  repeat bcase; cbn [orb andb negb]; reflexivity.
Qed.

Lemma Parse_multi_error p ev seq e :
  snd (Parse_multi p ev seq) = Some e ->
  seq <> [] /\ utf8.FullRune seq = false.
Proof.
  unfold Parse_multi. intros H.
  destruct seq as [| b0 q].
  - cbn in H. destruct (key (root p) =? KeyUnknown); discriminate.
  - split; [discriminate |].
    destruct ((0 <? Z.of_nat (length (b0 :: q))) && (utf8.at_ (b0 :: q) 0 >=? 128)
              && negb (utf8.at_ (b0 :: q) 0 =? 27)).
    + destruct (utf8.FullRune (b0 :: q)); [| reflexivity].
      cbn [negb] in H. destruct (utf8.DecodeRune (b0 :: q)) as [r size].
      destruct ((r =? utf8.RuneError) && (size =? 1)); discriminate.
    + destruct (walk (root p) (b0 :: q)) as [node |]; [| discriminate].
      destruct (negb (key node =? KeyUnknown)); discriminate.
Qed.

Lemma Parse_error now p seq e :
  snd (Parse now p seq) = Some e -> seq = [] \/ utf8.FullRune seq = false.
Proof.
  intros H. destruct seq as [| b0 q]; [left; reflexivity | right].
  revert H. unfold Parse. cbn [length].
  destruct (Z.eqb_spec (Z.of_nat (S (length q))) 0); [lia |].
  cbv zeta.
  destruct (Z.eqb_spec (Z.of_nat (S (length q))) 1).
  - repeat bcase; cbn [orb andb snd]; try discriminate;
      intros Hm; apply Parse_multi_error in Hm; tauto.
  - intros Hm; apply Parse_multi_error in Hm; tauto.
Qed.

Lemma Parse_error_incomplete now p seq :
  snd (Parse now p seq) <> None <-> seq = [] \/ IncompleteUTF8 seq.
Proof.
  split.
  - intros Herr.
    destruct (snd (Parse now p seq)) as [e |] eqn:E; [clear Herr | congruence].
    destruct (Parse_error _ _ _ _ E) as [-> | Hfull]; [left; reflexivity |].
    destruct seq as [| b0 q]; [left; reflexivity | right].
    destruct (not_FullRune_completes (b0 :: q)) as (rest & Hrest & Hwf);
      [discriminate | assumption |].
    destruct (WellFormed_EncodeRune _ Hwf) as (V & HV & Hge & Henc).
    exists V, rest. auto.
  - intros [-> | (V & rest & HV & Hge & Hrest & Henc)]; [discriminate |].
    destruct seq as [| b0 q]; [discriminate |].
    pose proof (EncodeRune_WellFormed V HV Hge) as Hwf. rewrite <- Henc in Hwf.
    pose proof (prefix_not_FullRune _ _ Hwf ltac:(discriminate) Hrest) as Hfull.
    destruct (WellFormed_lead _ Hwf) as [Hlead _].
    assert (Hlead' : 128 <= utf8.at_ (b0 :: q) 0)
      by (unfold utf8.at_ in *; cbn [nth app] in *; lia).
    rewrite Parse_lead_multi by (assumption || discriminate).
    rewrite Parse_multi_not_full by (assumption || discriminate).
    discriminate.
Qed.

(** ** The trie and the single-byte table *)

Lemma keyAt_fresh seq : keyAt (mkNode KeyUnknown 0 ∅) seq = KeyUnknown.
Proof.
  destruct seq as [| b rest]; [reflexivity |].
  unfold keyAt. cbn [walk children]. rewrite lookup_empty. reflexivity.
Qed.

Lemma keyAt_cons node b rest :
  keyAt node (b :: rest) =
  match children node !! b with
  | Some next => keyAt next rest
  | None => KeyUnknown
  end.
Proof. unfold keyAt. cbn [walk]. destruct (children node !! b); reflexivity. Qed.

(** [addSequence] changes the key found at the added sequence and at no
    other one. *)
Lemma keyAt_addSequence_from s : forall node seq k m,
  keyAt (addSequence_from node s k m) seq
  = if decide (seq = s) then k else keyAt node seq.
Proof.
  induction s as [| a s IH]; intros node seq k m.
  - destruct seq as [| b rest]; [reflexivity |].
    destruct (decide (b :: rest = [])) as [E | _]; [discriminate |].
    cbn [addSequence_from]. rewrite !keyAt_cons. reflexivity.
  - destruct seq as [| b rest].
    + destruct (decide ([] = a :: s)) as [E | _]; [discriminate |]. reflexivity.
    + cbn [addSequence_from]. rewrite !keyAt_cons. cbn [children].
      destruct (decide (a = b)) as [<- | Hne].
      * rewrite lookup_insert_eq, IH.
        destruct (decide (rest = s)) as [-> | Hr].
        -- rewrite decide_True by reflexivity. reflexivity.
        -- rewrite decide_False by congruence.
           destruct (children node !! a); [reflexivity | apply keyAt_fresh].
      * rewrite lookup_insert_ne by assumption.
        rewrite decide_False by congruence. reflexivity.
Qed.

Lemma addSequences_cons s k m tbl p :
  addSequences ((s, k, m) :: tbl) p = addSequences tbl (addSequence p s k m).
Proof. reflexivity. Qed.

Lemma keyAt_addSequences tbl : forall p seq,
  keyAt (root (addSequences tbl p)) seq <> keyAt (root p) seq ->
  exists K M, In (seq, K, M) tbl.
Proof.
  induction tbl as [| [[s k] m] tbl IH]; intros p seq H.
  - cbn in H. congruence.
  - rewrite addSequences_cons in H.
    destruct (Z.eq_dec (keyAt (root (addSequences tbl (addSequence p s k m))) seq)
                       (keyAt (root (addSequence p s k m)) seq)) as [E | Hne].
    + rewrite E in H. cbn [root addSequence] in H.
      rewrite keyAt_addSequence_from in H.
      destruct (decide (seq = s)) as [-> | _]; [| congruence].
      exists k, m. left. reflexivity.
    + destruct (IH _ _ Hne) as (K & M & Hin). exists K, M. right. exact Hin.
Qed.

Lemma keyAt_NewSequenceParser seq :
  keyAt (root NewSequenceParser) seq <> KeyUnknown ->
  exists K M, In (seq, K, M) sequenceTable.
Proof.
  intros H. apply (keyAt_addSequences sequenceTable {| root := mkNode KeyUnknown 0 ∅ |}).
  cbn [root]. rewrite keyAt_fresh. exact H.
Qed.

(** The trie branch of [Parse] reports the key the walk ends on. *)
Lemma Parse_multi_trie p ev seq :
  utf8.at_ seq 0 < 128 -> snd (Parse_multi p ev seq) = None
  /\ EKey (fst (Parse_multi p ev seq)) = keyAt (root p) seq.
Proof.
  intros Hlt. unfold Parse_multi, keyAt.
  rewrite Z.geb_leb. destruct (Z.leb_spec 128 (utf8.at_ seq 0)); [lia |].
  rewrite andb_false_r. cbn [andb].
  destruct (walk (root p) seq) as [node |]; [| split; reflexivity].
  destruct (Z.eqb_spec (key node) KeyUnknown) as [E | E]; cbn [negb];
    split; try reflexivity. cbn. congruence.
Qed.

Lemma Parse_multi_utf8_key p ev seq :
  128 <= utf8.at_ seq 0 -> snd (Parse_multi p ev seq) = None ->
  EKey (fst (Parse_multi p ev seq)) = KeyUnknown.
Proof.
  intros Hge. unfold Parse_multi.
  destruct seq as [| b0 q]; [cbn in Hge; lia |].
  cbn [length]. rewrite Z.geb_leb.
  destruct (Z.ltb_spec 0 (Z.of_nat (S (length q)))); [| lia].
  destruct (Z.leb_spec 128 (utf8.at_ (b0 :: q) 0)); [| lia].
  destruct (Z.eqb_spec (utf8.at_ (b0 :: q) 0) 27); [lia |].
  cbn [andb negb].
  destruct (utf8.FullRune (b0 :: q)); cbn [negb]; [| discriminate].
  destruct (utf8.DecodeRune (b0 :: q)) as [r size].
  destruct ((r =? utf8.RuneError) && (size =? 1)); reflexivity.
Qed.

Lemma Parse_unrecognized now seq :
  (2 <= length seq)%nat -> snd (Parse now NewSequenceParser seq) = None ->
  (forall K M, ~ In (seq, K, M) sequenceTable) ->
  EKey (fst (Parse now NewSequenceParser seq)) = KeyUnknown.
Proof.
  intros Hlen Hok Hnot. unfold Parse in *.
  destruct seq as [| b0 [| b1 q]]; cbn [length] in *; try lia.
  destruct (Z.eqb_spec (Z.of_nat (S (S (length q)))) 0); [lia |].
  destruct (Z.eqb_spec (Z.of_nat (S (S (length q)))) 1); [lia |].
  cbv zeta in *.
  destruct (Z.le_gt_cases 128 (utf8.at_ (b0 :: b1 :: q) 0)) as [Hge | Hlt].
  - apply Parse_multi_utf8_key; assumption.
  - destruct (Parse_multi_trie NewSequenceParser
                (mkEvent KeyUnknown 0 ModNone now true false) (b0 :: b1 :: q))
      as [_ ->]; [lia |].
    destruct (Z.eq_dec (keyAt (root NewSequenceParser) (b0 :: b1 :: q)) KeyUnknown)
      as [E | E]; [exact E |].
    destruct (keyAt_NewSequenceParser _ E) as (K & M & Hin).
    destruct (Hnot K M Hin).
Qed.

(** Single bytes. *)
Ltac unfold_keys :=
  cbv delta [KeyCtrlA KeyCtrlB KeyCtrlC KeyCtrlD KeyCtrlE KeyCtrlF KeyCtrlG KeyCtrlH KeyCtrlI KeyCtrlJ KeyCtrlK KeyCtrlL KeyCtrlM KeyCtrlN KeyCtrlO KeyCtrlP KeyCtrlQ KeyCtrlR KeyCtrlS KeyCtrlT KeyCtrlU KeyCtrlV KeyCtrlW KeyCtrlX KeyCtrlY KeyCtrlZ KeyUnknown KeyA Key0 KeySpace KeyTab KeyEnter].

Lemma Parse_single_ctrl now p b :
  1 <= bv b <= 26 -> bv b <> 9 -> bv b <> 13 ->
  Parse now p [b] = (mkEvent (KeyCtrlA + (bv b - 1)) 0 ModCtrl now true false, None).
Proof.
  intros H H9 H13. unfold Parse, utf8.at_. cbn [length nth Z.of_nat].
  cbn [Z.eqb Pos.eqb Pos.of_succ_nat]. cbv zeta.
  destruct (Z.eqb_spec (bv b) 27); [lia |].
  destruct (Z.leb_spec 1 (bv b)); [| lia].
  destruct (Z.leb_spec (bv b) 26); [| lia].
  cbn [andb]. unfold setModifiers, setKey. cbn.
  f_equal. f_equal. unfold ctrlCharToKey.
  repeat bcase; unfold_keys; lia.
Qed.

Lemma Parse_single_printable now p b :
  32 < bv b <= 126 ->
  Parse now p [b] = (mkEvent (runeToKey (bv b)) (bv b) ModNone now true false, None).
Proof.
  intros H. unfold Parse, utf8.at_. cbn [length nth Z.of_nat].
  cbn [Z.eqb Pos.eqb Pos.of_succ_nat]. cbv zeta.
  repeat bcase; cbn [andb orb]; try reflexivity.
Qed.

Lemma runeToKey_letters_digits r :
  (97 <= r <= 122 -> runeToKey r = KeyA + (r - 97))
  /\ (65 <= r <= 90 -> runeToKey r = KeyA + (r - 65))
  /\ (48 <= r <= 57 -> runeToKey r = Key0 + (r - 48)).
Proof.
  unfold runeToKey. repeat split; intros H; repeat bcase; reflexivity.
Qed.

Lemma Parse_single_specials now p :
  Parse now p [x1b] = (mkEvent KeyEscape 0 ModNone now true false, None)
  /\ Parse now p [x7f] = (mkEvent KeyBackspace 0 ModNone now true false, None)
  /\ Parse now p [x20] = (mkEvent KeySpace 32 ModNone now true false, None).
Proof. repeat split; reflexivity. Qed.

Example Parse_ctrl_c now p :
  Parse now p [x03] = (mkEvent KeyCtrlC 0 ModCtrl now true false, None).
Proof. reflexivity. Qed.

Example Parse_letter_case now p :
  Parse now p [ch "a"] = (mkEvent KeyA 97 ModNone now true false, None)
  /\ Parse now p [ch "A"] = (mkEvent KeyA 65 ModNone now true false, None)
  /\ Parse now p [ch "5"] = (mkEvent Key5 53 ModNone now true false, None)
  /\ Parse now p [ch "!"] = (mkEvent KeyUnknown 33 ModNone now true false, None).
Proof. repeat split; reflexivity. Qed.

Lemma Parse_single_tab_enter now p :
  Parse now p [x09] = (mkEvent KeyUnknown 0 ModCtrl now true false, None)
  /\ Parse now p [x0d] = (mkEvent KeyUnknown 0 ModCtrl now true false, None)
  /\ Parse now p [x08] = (mkEvent KeyCtrlH 0 ModCtrl now true false, None).
Proof. repeat split; reflexivity. Qed.

(** ** The unix backend *)

(** On a terminal [Init] saves the mode it finds and [Restore] puts it
    back; neither touches the bytes to come. *)
Lemma unixBackend_Restore_Init t inc :
  let b := newBackend (mkFile (Some t) inc) in
  fst (unixBackend_Init b) = None
  /\ termios (file (snd (unixBackend_Init b))) = Some (rawState t)
  /\ fst (unixBackend_Restore (snd (unixBackend_Init b))) = None
  /\ file (snd (unixBackend_Restore (snd (unixBackend_Init b)))) = mkFile (Some t) inc.
Proof. repeat split; reflexivity. Qed.

(** [Restore] before any [Init] does nothing. *)
Lemma unixBackend_Restore_fresh stdin :
  unixBackend_Restore (newBackend stdin) = (None, newBackend stdin).
Proof. reflexivity. Qed.

Lemma File_Read_chunk timed d inc :
  (length d <= bufLen)%nat -> File_Read timed (Chunk d :: inc) = (d, None, inc).
Proof.
  intros H. cbn [File_Read].
  destruct (Nat.leb_spec (length d) bufLen); [reflexivity | lia].
Qed.

Lemma File_Read_quiet rest :
  quiet rest = true ->
  exists data err inc, File_Read true rest = (data, err, inc)
    /\ (err <> None \/ data = []).
Proof.
  intros Hq. destruct rest as [| [d | | e] rest]; cbn [File_Read].
  - eexists _, _, _. split; [reflexivity | left; discriminate].
  - destruct d; [| discriminate]. cbn.
    eexists _, _, _. split; [reflexivity | right; reflexivity].
  - eexists _, _, _. split; [reflexivity | left; discriminate].
  - eexists _, _, _. split; [reflexivity | left; discriminate].
Qed.

Lemma escapeLoop_S fuel b :
  16 - lenPending b <= Z.of_nat fuel ->
  escapeLoop (S fuel) b = escapeLoop fuel b.
Proof.
  revert b. induction fuel as [| fuel IH]; intros b Hf.
  - cbn [escapeLoop]. destruct (Z.ltb_spec (lenPending b) 16); [lia | reflexivity].
  - cbn [escapeLoop] in *.
    destruct (Z.ltb_spec (lenPending b) 16); [| reflexivity].
    destruct (readWithTimeout b) as [[data err] b1] eqn:E.
    destruct err; [reflexivity |].
    destruct (Z.eqb_spec (Z.of_nat (length data)) 0); [reflexivity |].
    apply IH.
    assert (lenPending b1 = lenPending b).
    { unfold readWithTimeout in E.
      destruct (File_Read true (incoming (file b))) as [[d' e'] inc'].
      inversion E; subst. reflexivity. }
    unfold lenPending, appendPending in *. cbn [pendingBuf set_pendingBuf] in *.
    rewrite length_app. lia.
Qed.

(** Sixteen passes are all the escape loop can ever make. *)
Lemma escapeLoop_fuel n b :
  0 <= lenPending b -> escapeLoop (16 + n) b = escapeLoop 16 b.
Proof.
  intros H. induction n as [| n IH]; [reflexivity |].
  rewrite Nat.add_succ_r, escapeLoop_S by lia. exact IH.
Qed.

Lemma escapeLoop_step n b :
  escapeLoop (S n) b =
  if lenPending b <? 16 then
    let '(data, err, b1) := readWithTimeout b in
    match err with
    | Some _ => b1
    | None =>
        if Z.of_nat (length data) =? 0 then b1
        else escapeLoop n (appendPending data b1)
    end
  else b.
Proof. reflexivity. Qed.

Section Device.

Variables (fd : Z) (o : option Termios) (p : SequenceParser)
          (t : option Termios) (ini : bool).

Local Abbreviation hold := (holding fd o p t ini).

Lemma Read_chunk pb d inc :
  (length d <= bufLen)%nat ->
  Read (hold pb (Chunk d :: inc)) = (d, None, hold pb inc).
Proof.
  intros H. unfold Read, holding. cbn [file incoming termios].
  rewrite File_Read_chunk by assumption. reflexivity.
Qed.

Lemma readWithTimeout_chunk pb d inc :
  (length d <= bufLen)%nat ->
  readWithTimeout (hold pb (Chunk d :: inc)) = (d, None, hold pb inc).
Proof.
  intros H. unfold readWithTimeout, holding. cbn [file incoming termios].
  rewrite File_Read_chunk by assumption. reflexivity.
Qed.

Lemma appendPending_holding d pb inc :
  appendPending d (hold pb inc) = hold (pb ++ d) inc.
Proof. reflexivity. Qed.

Lemma escapeLoop_quiet n pb rest :
  quiet rest = true ->
  escapeLoop (S n) (hold pb rest)
  = hold pb (if Z.of_nat (length pb) <? 16 then afterQuiet rest else rest).
Proof.
  intros Hq. rewrite escapeLoop_step. unfold lenPending. cbn [pendingBuf holding].
  destruct (Z.ltb_spec (Z.of_nat (length pb)) 16); [| reflexivity].
  unfold readWithTimeout, afterQuiet. cbn [file incoming termios holding].
  destruct (File_Read_quiet rest Hq) as (data & err & inc & E & Hstop).
  rewrite E. cbn [snd].
  destruct err as [e |]; [reflexivity |].
  destruct Hstop as [Hn | ->]; [congruence |]. reflexivity.
Qed.

Lemma readMoreEscape_other pb inc :
  utf8.at_ pb 0 <> 27 -> readMoreEscape (hold pb inc) = hold pb inc.
Proof.
  intros H. unfold readMoreEscape. cbn [pendingBuf holding].
  destruct (Z.eqb_spec (utf8.at_ pb 0) 27); [contradiction |].
  rewrite andb_false_r. reflexivity.
Qed.

Lemma readMoreEscape_whole pb rest :
  pb <> [] -> utf8.at_ pb 0 = 27 -> quiet rest = true ->
  readMoreEscape (hold pb rest)
  = hold pb (if Z.of_nat (length pb) <? 16 then afterQuiet rest else rest).
Proof.
  intros Hne Hesc Hq. unfold readMoreEscape, lenPending. cbn [pendingBuf holding].
  rewrite Hesc. destruct pb; [congruence |]. cbn [length].
  destruct (Z.ltb_spec 0 (Z.of_nat (S (length pb)))); [| lia].
  cbn [andb Z.eqb Pos.eqb]. apply (escapeLoop_quiet 15). assumption.
Qed.

Lemma readMoreEscape_split h1 h2 rest :
  h1 <> [] -> h2 <> [] -> utf8.at_ h1 0 = 27 ->
  (length (h1 ++ h2) <= 16)%nat -> quiet rest = true ->
  readMoreEscape (hold h1 (Chunk h2 :: rest))
  = hold (h1 ++ h2)
      (if Z.of_nat (length (h1 ++ h2)) <? 16 then afterQuiet rest else rest).
Proof.
  intros Hn1 Hn2 Hesc Hlen Hq.
  unfold readMoreEscape, lenPending. cbn [pendingBuf holding].
  rewrite Hesc.
  assert (0 < length h1)%nat by (destruct h1; [congruence | cbn; lia]).
  assert (0 < length h2)%nat by (destruct h2; [congruence | cbn; lia]).
  rewrite length_app in Hlen.
  destruct (Z.ltb_spec 0 (Z.of_nat (length h1))); [| lia].
  cbn [andb Z.eqb Pos.eqb].
  rewrite (escapeLoop_step 15).
  unfold lenPending. cbn [pendingBuf holding].
  destruct (Z.ltb_spec (Z.of_nat (length h1)) 16); [| lia].
  rewrite readWithTimeout_chunk by (unfold bufLen; lia).
  destruct (Z.eqb_spec (Z.of_nat (length h2)) 0); [lia |].
  rewrite appendPending_holding. apply (escapeLoop_quiet 14). assumption.
Qed.

Lemma readMoreUTF8_other pb inc :
  utf8.at_ pb 0 < 128 \/ utf8.FullRune pb = true ->
  readMoreUTF8 (hold pb inc) = hold pb inc.
Proof.
  intros H. unfold readMoreUTF8. cbn [pendingBuf holding].
  destruct H as [H | H].
  - rewrite Z.geb_leb. destruct (Z.leb_spec 128 (utf8.at_ pb 0)); [lia |].
    rewrite andb_false_r. reflexivity.
  - rewrite H. cbn [negb].
    destruct (_ && _ && _); reflexivity.
Qed.

Lemma readMoreUTF8_split h1 h2 rest :
  h1 <> [] -> h2 <> [] -> 128 <= utf8.at_ h1 0 -> utf8.FullRune h1 = false ->
  (length (h1 ++ h2) <= 4)%nat ->
  readMoreUTF8 (hold h1 (Chunk h2 :: rest)) = hold (h1 ++ h2) rest.
Proof.
  intros Hn1 Hn2 Hlead Hfull Hlen.
  assert (0 < length h1)%nat by (destruct h1; [congruence | cbn; lia]).
  assert (0 < length h2)%nat by (destruct h2; [congruence | cbn; lia]).
  rewrite length_app in Hlen.
  unfold readMoreUTF8, lenPending, utf8.UTFMax. cbn [pendingBuf holding].
  rewrite Hfull, Z.geb_leb. cbn [negb].
  destruct (Z.ltb_spec 0 (Z.of_nat (length h1))); [| lia].
  destruct (Z.leb_spec 128 (utf8.at_ h1 0)); [| lia].
  destruct (Z.eqb_spec (utf8.at_ h1 0) 27); [lia |].
  cbn [andb negb].
  destruct (Z.ltb_spec (Z.of_nat (length h1)) 4); [| lia].
  rewrite readWithTimeout_chunk by (unfold bufLen; lia).
  destruct (Z.ltb_spec 0 (Z.of_nat (length h2))); [| lia].
  reflexivity.
Qed.

Lemma parseAndRetry_ok now pb inc :
  snd (Parse now p pb) = None ->
  parseAndRetry now (hold pb inc) = (fst (Parse now p pb), None, hold pb inc).
Proof.
  intros H. unfold parseAndRetry. cbn [parser pendingBuf holding].
  destruct (Parse now p pb) as [ev err]. cbn [snd fst] in *. subst err.
  reflexivity.
Qed.

End Device.

Lemma sequenceTable_shape S K M :
  In (S, K, M) sequenceTable ->
  utf8.at_ S 0 = 27 /\ (2 <= length S <= 5)%nat.
Proof.
  intros H. unfold sequenceTable in H. cbn [In] in H.
  repeat (destruct H as [H | H]; [inversion H; subst; split; [reflexivity | cbn; lia] |]).
  destruct H.
Qed.

Lemma Parse_table (now : Time) S K M :
  In (S, K, M) sequenceTable ->
  Parse now NewSequenceParser S = (mkEvent K 0 M now true false, None).
Proof.
  intros H. unfold sequenceTable in H. cbn [In] in H.
  repeat (destruct H as [H | H]; [inversion H; subst; vm_compute; reflexivity |]).
  destruct H.
Qed.

Lemma at_take (B : list byte) i : (0 < i)%nat -> utf8.at_ (take i B) 0 = utf8.at_ B 0.
Proof. intros H. destruct i; [lia |]. destruct B; reflexivity. Qed.

Lemma split_parts (B : list byte) i :
  (0 < i < length B)%nat ->
  take i B <> [] /\ drop i B <> [] /\ take i B ++ drop i B = B.
Proof.
  intros H. repeat split.
  - intros E. apply (f_equal length) in E. rewrite length_take in E. cbn in E. lia.
  - intros E. apply (f_equal length) in E. rewrite length_drop in E. cbn in E. lia.
  - apply take_drop.
Qed.

Lemma ReadEvent_split_reads fd o t ini now B i rest :
  ValidSequence B -> (0 < i < length B)%nat -> quiet rest = true ->
  let b := holding fd o NewSequenceParser t ini [] in
  unixBackend_ReadEvent now (b (Chunk (take i B) :: Chunk (drop i B) :: rest))
  = unixBackend_ReadEvent now (b (Chunk B :: rest))
  /\ fst (unixBackend_ReadEvent now (b (Chunk B :: rest)))
     = (fst (Parse now NewSequenceParser B), None)
  /\ snd (Parse now NewSequenceParser B) = None.
Proof.
  intros Hvalid Hi Hq b. subst b.
  destruct (split_parts B i Hi) as (Hn1 & Hn2 & Happ).
  assert (Hl1 : (length (take i B) <= length B)%nat) by (rewrite length_take; lia).
  assert (Hl2 : (length (drop i B) <= length B)%nat) by (rewrite length_drop; lia).
  pose proof (at_take B i ltac:(lia)) as Hat.
  unfold unixBackend_ReadEvent.
  destruct Hvalid as [V HV Hge | S K M Hin].
  - pose proof (EncodeRune_WellFormed V HV Hge) as Hwf.
    set (B := utf8.EncodeRune V) in *.
    destruct (WellFormed_lead _ Hwf) as [Hlead Hlen].
    pose proof (WellFormed_FullRune _ Hwf) as Hfull.
    assert (Hpre : utf8.FullRune (take i B) = false).
    { apply (prefix_not_FullRune _ (drop i B)); [rewrite Happ |..]; assumption. }
    assert (Hok : snd (Parse now NewSequenceParser B) = None)
      by (subst B; rewrite Parse_EncodeRune by assumption; reflexivity).
    rewrite !Read_chunk by (unfold bufLen; lia).
    rewrite !appendPending_holding. cbn [app].
    rewrite readMoreUTF8_split by (rewrite ?Happ; assumption || lia).
    rewrite Happ.
    rewrite (readMoreUTF8_other _ _ _ _ _ B) by (right; assumption).
    rewrite !readMoreEscape_other by lia.
    rewrite !parseAndRetry_ok by assumption.
    repeat split; assumption.
  - destruct (sequenceTable_shape _ _ _ Hin) as [Hesc Hlen].
    assert (Hok : snd (Parse now NewSequenceParser S) = None)
      by (rewrite (Parse_table now S K M Hin); reflexivity).
    rewrite !Read_chunk by (unfold bufLen; lia).
    rewrite !appendPending_holding. cbn [app].
    rewrite !readMoreUTF8_other by (left; lia).
    rewrite readMoreEscape_split by (rewrite ?Happ; assumption || lia).
    rewrite Happ.
    rewrite readMoreEscape_whole by (assumption || (intros ->; cbn in Hlen; lia)).
    rewrite !parseAndRetry_ok by assumption.
    repeat split; assumption.
Qed.

(** A lone ESC followed by an idle device is the Escape key. *)
Example ReadEvent_lone_escape :
  fst (unixBackend_ReadEvent 0 (newBackend (terminal [Chunk [x1b]; Idle])))
  = (mkEvent KeyEscape 0 ModNone 0 true false, None).
Proof. vm_compute. reflexivity. Qed.

Lemma ReadEvent_clears now b :
  pendingBuf b = [] -> pendingBuf (snd (unixBackend_ReadEvent now b)) = [].
Proof.
  intros H. unfold unixBackend_ReadEvent, Read.
  destruct (File_Read false (incoming (file b))) as [[data err] inc].
  destruct err as [e |]; [exact H |].
  destruct (parseAndRetry now _) as [[ev err] b4]. reflexivity.
Qed.

(** ** The capture pipeline: what every run preserves *)

Section ImplFacts.

Context {B : Type} {BB : Backend B}.
Implicit Types (i j : inputImpl B) (pick : bool).

Lemma Inv_New (b : B) : Inv (New b).
Proof. constructor; cbn; try reflexivity; try discriminate; auto. Qed.

Lemma keyState_captureStep pick i : keyState (captureStep pick i) = keyState i.
Proof.
  unfold captureStep, captureExit.
  destruct (capture i); try reflexivity.
  - destruct (done i); [reflexivity |].
    destruct (ReadEvent (backend i)) as [[ev err] b].
    destruct err as [e |]; [| reflexivity].
    destruct (decide (e = io_EOF)); [reflexivity |].
    destruct (_ >=? _); reflexivity.
  - destruct (done i); reflexivity.
  - destruct (_ || _), (done i), pick, (closed (events i)); reflexivity.
Qed.

Ltac inv_solve :=
  constructor; cbn in *;
  repeat match goal with
  | H : ?x = _ |- context [?x] => rewrite H
  end;
  cbn in *; intuition (try discriminate; try congruence; try lia).

Lemma Inv_captureStep pick i : Inv i -> Inv (captureStep pick i).
Proof.
  intros [Hwg Hp Hc Hd Hs]. unfold captureStep, captureExit.
  destruct (capture i) eqn:Ecap; try (constructor; rewrite ?Ecap; assumption).
  - (* LoopHead *)
    destruct (done i) eqn:Ed.
    + inv_solve.
    + destruct (ReadEvent (backend i)) as [[ev err] b].
      destruct err as [e |].
      * destruct (decide (e = io_EOF)); [| destruct (_ >=? _)]; inv_solve.
      * inv_solve.
  - (* Backoff *)
    destruct (done i) eqn:Ed; inv_solve.
  - (* Sending *)
    destruct (done i) eqn:Ed.
    { destruct (Hd eq_refl) as (_ & _ & []). }
    destruct (closed (events i)) eqn:Ecl.
    { destruct (Hc eq_refl) as [? _]. congruence. }
    rewrite orb_false_r.
    destruct (_ <? _)%nat; inv_solve.
Qed.

Lemma Inv_Start i : Inv i -> Inv (snd (Start i)).
Proof.
  intros HI. unfold Start.
  destruct (started i) eqn:Est; [exact HI |].
  destruct HI as [Hwg Hp Hc Hd Hs].
  specialize (Hs Est).
  destruct (Init (backend i)) as [[e |] b]; [inv_solve |].
  destruct (capture i); cbn in Hs; try discriminate; inv_solve.
Qed.

Lemma Inv_Next i : Inv i -> Inv (snd (Next i)).
Proof.
  intros HI. unfold Next, recvReady, updateKeyState.
  destruct (buf (events i)) as [| ev rest] eqn:Ebuf.
  - destruct (closed (events i)) eqn:Ecl; [| exact HI].
    destruct HI as [Hwg Hp Hc Hd Hs].
    cbn. constructor; cbn; auto.
  - destruct HI as [Hwg Hp Hc Hd Hs]. destruct (EPressed ev); inv_solve.
Qed.

Lemma Inv_Poll pick i ev ok i' : Inv i -> Poll pick i = Some (ev, ok, i') -> Inv i'.
Proof.
  intros HI. unfold Poll, recvReady, updateKeyState.
  destruct (buf (events i)) as [| e rest] eqn:Ebuf.
  - destruct (closed (events i)), (done i), pick; intros H; inversion H; subst;
      exact HI.
  - destruct (done i) eqn:Ed, pick; intros H; inversion H; subst;
      try exact HI;
      destruct HI as [Hwg Hp Hc Hd Hs];
      match goal with |- context [EPressed ?x] => destruct (EPressed x) end;
      inv_solve.
Qed.

Lemma wgWait_S n pick i :
  wgWait (S n) pick i =
  if (wg i =? 0)%nat then (true, i) else wgWait n pick (captureStep pick i).
Proof. reflexivity. Qed.

Lemma wgWait_zero n pick i : wg i = 0%nat -> wgWait n pick i = (true, i).
Proof. intros H. destruct n; cbn [wgWait]; rewrite H; reflexivity. Qed.

Lemma captureStep_head_done pick i c :
  capture i = LoopHead c -> done i = true -> captureStep pick i = captureExit i.
Proof. intros Hc Hd. unfold captureStep. rewrite Hc, Hd. reflexivity. Qed.

Lemma captureStep_backoff_done pick i c :
  capture i = Backoff c -> done i = true -> captureStep pick i = captureExit i.
Proof. intros Hc Hd. unfold captureStep. rewrite Hc, Hd. reflexivity. Qed.

Lemma wgWait_closing pick i :
  wg i = (if live (capture i) then 1%nat else 0%nat) ->
  capture i <> Panicked -> closed (events i) = false -> done i = true ->
  exists i', wgWait 2 pick i = (true, i')
    /\ wg i' = 0%nat /\ live (capture i') = false /\ capture i' <> Panicked
    /\ done i' = true /\ closed (events i') = false
    /\ keyState i' = keyState i /\ started i' = started i
    /\ stopping i' = stopping i
    /\ stopOnce i' = stopOnce i /\ backend i' = backend i
    /\ cap (events i') = cap (events i).
Proof.
  intros Hwg Hp Hcl Hd.
  destruct (capture i) eqn:Ecap; cbn [live] in Hwg.
  1,5,6: exists i; rewrite wgWait_zero by assumption; rewrite Ecap;
    repeat split; auto; congruence.
  - (* LoopHead *)
    exists (captureExit i). rewrite wgWait_S, Hwg. cbn [Nat.eqb].
    rewrite (captureStep_head_done _ _ _ Ecap Hd).
    rewrite wgWait_zero by (cbn; rewrite Hwg; reflexivity).
    cbn. rewrite Hwg. repeat split; auto; discriminate.
  - (* Backoff *)
    exists (captureExit i). rewrite wgWait_S, Hwg. cbn [Nat.eqb].
    rewrite (captureStep_backoff_done _ _ _ Ecap Hd).
    rewrite wgWait_zero by (cbn; rewrite Hwg; reflexivity).
    cbn. rewrite Hwg. repeat split; auto; discriminate.
  - (* Sending *)
    rewrite wgWait_S, Hwg. cbn [Nat.eqb].
    assert (Hstep : captureStep pick i = captureExit i \/
             captureStep pick i =
               set_capture (LoopHead 0)
                 (set_events (mkChan (buf (events i) ++ [event]) (cap (events i)) false) i)).
    { unfold captureStep. rewrite Ecap, Hd, Hcl, orb_false_r.
      destruct (_ <? _)%nat, pick; auto. }
    destruct Hstep as [-> | ->].
    + exists (captureExit i).
      rewrite wgWait_zero by (cbn; rewrite Hwg; reflexivity).
      cbn. rewrite Hwg. repeat split; auto; discriminate.
    + eexists. rewrite wgWait_S. cbn [wg set_capture set_events]. rewrite Hwg.
      cbn [Nat.eqb].
      rewrite (captureStep_head_done _ _ 0) by (cbn; auto).
      rewrite wgWait_zero by (cbn; rewrite Hwg; reflexivity).
      split; [reflexivity |].
      cbn. rewrite Hwg. repeat split; auto; discriminate.
Qed.

(** Once [done] is closed the goroutine is gone or stuck for good after
    two moves: waiting longer changes nothing. *)
Lemma captureStep_settled pick i :
  live (capture i) = false -> captureStep pick i = i.
Proof.
  intros H. unfold captureStep. destruct (capture i); (discriminate || reflexivity).
Qed.

Lemma captureStep_twice_done pick i :
  done i = true ->
  live (capture (captureStep pick (captureStep pick i))) = false.
Proof.
  intros Hd.
  destruct (live (capture i)) eqn:El.
  2: { rewrite !(captureStep_settled pick i) by assumption. exact El. }
  destruct (capture i) as [| c | c | ev | |] eqn:Ecap; try discriminate El.
  - rewrite (captureStep_head_done pick i c Ecap Hd).
    rewrite captureStep_settled; reflexivity.
  - rewrite (captureStep_backoff_done pick i c Ecap Hd).
    rewrite captureStep_settled; reflexivity.
  - assert (Hstep : captureStep pick i = captureExit i
                    \/ captureStep pick i = set_capture Panicked i
                    \/ captureStep pick i =
                         set_capture (LoopHead 0)
                           (set_events (mkChan (buf (events i) ++ [ev])
                                          (cap (events i)) false) i)).
    { unfold captureStep. rewrite Ecap, Hd.
      destruct ((length (buf (events i)) <? cap (events i))%nat || closed (events i)),
               pick, (closed (events i)); auto. }
    destruct Hstep as [-> | [-> | ->]].
    + rewrite captureStep_settled; reflexivity.
    + rewrite captureStep_settled; reflexivity.
    + rewrite (captureStep_head_done pick _ 0) by (cbn; auto). reflexivity.
Qed.

Lemma wgWait_settled n pick i :
  live (capture i) = false ->
  wgWait n pick i = ((wg i =? 0)%nat, i).
Proof.
  intros H. induction n as [| n IH]; cbn [wgWait].
  - destruct (wg i =? 0)%nat; reflexivity.
  - rewrite captureStep_settled by assumption. rewrite IH.
    destruct (wg i =? 0)%nat; reflexivity.
Qed.

Lemma wgWait_fuel n pick i :
  done i = true -> wgWait (2 + n) pick i = wgWait 2 pick i.
Proof.
  intros Hd. cbn [Nat.add]. rewrite !wgWait_S.
  destruct (wg i =? 0)%nat; [reflexivity |].
  destruct (wg (captureStep pick i) =? 0)%nat; [reflexivity |].
  rewrite !wgWait_settled by (apply captureStep_twice_done; exact Hd).
  reflexivity.
Qed.

Lemma Stop_effective pick i :
  Inv i -> started i = true -> stopOnce i = false ->
  exists i', Stop pick i = (true, i')
    /\ started i' = false /\ stopOnce i' = true /\ done i' = true
    /\ events i' = mkChan [] (cap (events i)) true
    /\ backend i' = snd (Restore (backend i))
    /\ keyState i' = keyState i /\ live (capture i') = false
    /\ Inv i'.
Proof.
  intros [Hwg Hp Hc Hd Hs] Hst Hon.
  assert (Hdn : done i = false).
  { destruct (done i) eqn:E; [| reflexivity]. destruct (Hd eq_refl). congruence. }
  assert (Hcl : closed (events i) = false).
  { destruct (closed (events i)) eqn:E; [| reflexivity].
    destruct (Hc eq_refl). congruence. }
  unfold Stop. rewrite Hon. cbn [started set_stopOnce]. rewrite Hst. cbn [negb].
  destruct (wgWait_closing pick
              (set_done true (set_stopping true (set_stopOnce true i))))
    as (i3 & E & Hwg3 & Hl3 & Hp3 & Hd3 & Hcl3 & Hk3 & Hs3 & Hsp3 & Ho3 & Hb3 & Hcap3);
    [exact Hwg | exact Hp | exact Hcl | reflexivity |].
  rewrite E. cbn in Hk3, Hs3, Ho3, Hb3, Hcap3. rewrite Hb3.
  destruct (Restore (backend i)) as [e b] eqn:ER.
  eexists. split; [reflexivity |]. cbn.
  repeat split; cbn; auto; try congruence.
  - rewrite Hl3. exact Hwg3.
  - destruct (capture i3); cbn in Hl3; (discriminate || exact I).
Qed.

Lemma Inv_Stop pick i : Inv i -> Inv (snd (Stop pick i)).
Proof.
  intros HI. destruct (stopOnce i) eqn:Hon.
  { unfold Stop. rewrite Hon. exact HI. }
  destruct (started i) eqn:Hst.
  - destruct (Stop_effective pick i HI Hst Hon) as (i' & E & _ & _ & _ & _ & _ & _ & _ & HI').
    rewrite E. exact HI'.
  - unfold Stop. rewrite Hon. cbn [started set_stopOnce]. rewrite Hst. cbn.
    destruct HI as [Hwg Hp Hc Hd Hs]. inv_solve.
Qed.

Lemma Inv_step i o : Inv i -> Inv (step i o).
Proof.
  intros HI. destruct o; cbn [step].
  - apply Inv_Start, HI.
  - apply Inv_Stop, HI.
  - destruct (Poll pick i) as [[[ev ok] i'] |] eqn:E; [| exact HI].
    eapply Inv_Poll; eassumption.
  - apply Inv_Next, HI.
  - apply Inv_captureStep, HI.
Qed.

Lemma Inv_run ops i : Inv i -> Inv (run ops i).
Proof.
  revert i. induction ops as [| o ops IH]; intros i HI; [exact HI |].
  cbn. apply IH, Inv_step, HI.
Qed.

End ImplFacts.

(** ** The capture pipeline: the loop, the consumers and the lifecycle *)

Section ImplClaims.

Context {B : Type} {BB : Backend B}.
Implicit Types (i j : inputImpl B) (pick : bool).

Lemma captureSteps_add n m pick i :
  captureSteps (n + m) pick i = captureSteps m pick (captureSteps n pick i).
Proof. revert i. induction n as [| n IH]; intros i; cbn; [reflexivity | apply IH]. Qed.

Lemma failsN_add n m b b' :
  failsN (n + m) b b' -> exists bm, failsN n b bm /\ failsN m bm b'.
Proof.
  revert b. induction n as [| n IH]; intros b H; cbn in *.
  - exists b. auto.
  - destruct H as (ev & e & b1 & Hr & He & H).
    destruct (IH _ H) as (bm & Hn & Hm).
    exists bm. split; [| exact Hm]. exists ev, e, b1. auto.
Qed.

(** A failing read below the limit: two moves bring the goroutine back to
    the loop head with the counter one higher and nothing else touched. *)
Lemma captureStep_failure pick i c ev e b1 :
  capture i = LoopHead c -> done i = false ->
  ReadEvent (backend i) = (ev, Some e, b1) -> e <> io_EOF ->
  c + 1 < maxConsecutiveErrors ->
  captureSteps 2 pick i = set_capture (LoopHead (c + 1)) (set_backend b1 i).
Proof.
  intros Hc Hd Hr He Hlt. cbn [captureSteps].
  unfold captureStep at 2. rewrite Hc, Hd, Hr.
  destruct (decide (e = io_EOF)); [contradiction |].
  destruct (Z.geb_spec (c + 1) maxConsecutiveErrors); [lia |].
  unfold captureStep. cbn. rewrite Hd. reflexivity.
Qed.

Lemma captureStep_last_failure pick i c ev e b1 :
  capture i = LoopHead c -> done i = false ->
  ReadEvent (backend i) = (ev, Some e, b1) -> e <> io_EOF ->
  maxConsecutiveErrors <= c + 1 ->
  captureStep pick i = captureExit (set_backend b1 i).
Proof.
  intros Hc Hd Hr He Hge. unfold captureStep. rewrite Hc, Hd, Hr.
  destruct (decide (e = io_EOF)); [contradiction |].
  destruct (Z.geb_spec (c + 1) maxConsecutiveErrors); [reflexivity | lia].
Qed.

Lemma captureSteps_failures n : forall pick i c b',
  capture i = LoopHead c -> done i = false ->
  failsN n (backend i) b' -> c + Z.of_nat n < maxConsecutiveErrors ->
  captureSteps (2 * n) pick i
  = set_capture (LoopHead (c + Z.of_nat n)) (set_backend b' i).
Proof.
  induction n as [| n IH]; intros pick i c b' Hc Hd Hf Hlt.
  - cbn in Hf. subst b'. cbn. rewrite Z.add_0_r. destruct i; cbn in *. subst. reflexivity.
  - destruct Hf as (ev & e & b1 & Hr & He & Hf).
    replace (2 * S n)%nat with (2 + 2 * n)%nat by lia.
    rewrite captureSteps_add.
    rewrite (captureStep_failure pick i c ev e b1 Hc Hd Hr He) by lia.
    rewrite (IH pick _ (c + 1) b'); [| reflexivity | exact Hd | exact Hf | lia].
    unfold set_capture, set_backend. cbn. do 2 f_equal. lia.
Qed.

Lemma captureStep_send pick i ev :
  capture i = Sending ev -> done i = false -> closed (events i) = false ->
  (length (buf (events i)) < cap (events i))%nat ->
  captureStep pick i
  = set_capture (LoopHead 0)
      (set_events (mkChan (buf (events i) ++ [ev]) (cap (events i)) false) i).
Proof.
  intros Hc Hd Hcl Hroom. unfold captureStep. rewrite Hc, Hd, Hcl.
  destruct (Nat.ltb_spec (length (buf (events i))) (cap (events i))); [| lia].
  reflexivity.
Qed.

Lemma captureStep_read pick i c ev b1 :
  capture i = LoopHead c -> done i = false ->
  ReadEvent (backend i) = (ev, None, b1) ->
  captureStep pick i = set_capture (Sending ev) (set_backend b1 i).
Proof.
  intros Hc Hd Hr. unfold captureStep. rewrite Hc, Hd, Hr. reflexivity.
Qed.

Lemma captureStep_success pick i c ev b1 :
  capture i = LoopHead c -> done i = false -> closed (events i) = false ->
  (length (buf (events i)) < cap (events i))%nat ->
  ReadEvent (backend i) = (ev, None, b1) ->
  captureSteps 2 pick i
  = set_capture (LoopHead 0)
      (set_events (mkChan (buf (events i) ++ [ev]) (cap (events i)) false)
         (set_backend b1 i)).
Proof.
  intros Hc Hd Hcl Hroom Hr. cbn [captureSteps].
  rewrite (captureStep_read pick i c ev b1 Hc Hd Hr).
  rewrite (captureStep_send pick _ ev); [reflexivity | reflexivity |..]; assumption.
Qed.

Lemma Inv_captureSteps n pick i : Inv i -> Inv (captureSteps n pick i).
Proof.
  revert i. induction n as [| n IH]; intros i HI; [exact HI |].
  cbn. apply IH, Inv_captureStep, HI.
Qed.

Lemma Poll_blocks pick i :
  buf (events i) = [] -> closed (events i) = false -> done i = false ->
  Poll pick i = None.
Proof.
  intros Hb Hc Hd. unfold Poll, recvReady. rewrite Hb, Hc, Hd. reflexivity.
Qed.

Lemma Poll_stopped pick i :
  buf (events i) = [] -> closed (events i) = true ->
  Poll pick i = Some (Event_zero, false, i).
Proof.
  intros Hb Hc. unfold Poll, recvReady. rewrite Hb, Hc.
  destruct (done i), pick; reflexivity.
Qed.

(** [Stop] on a started instance whose [stopOnce] is unused: it returns,
    the instance is stopped, [Restore] has run on the backend, a second
    [Stop] changes nothing and [Poll] reports the shutdown. *)
Lemma Stop_once_started pick pick' i :
  Inv i -> started i = true -> stopOnce i = false ->
  exists i', Stop pick i = (true, i')
    /\ started i' = false /\ done i' = true
    /\ backend i' = snd (Restore (backend i))
    /\ Stop pick' i' = (true, i')
    /\ Poll pick' i' = Some (Event_zero, false, i').
Proof.
  intros HI Hst Hon.
  destruct (Stop_effective pick i HI Hst Hon)
    as (i' & ES & Hs' & Ho' & Hd' & Hev' & Hb' & _).
  exists i'. repeat split; try assumption.
  - unfold Stop. rewrite Ho'. reflexivity.
  - apply Poll_stopped; rewrite Hev'; reflexivity.
Qed.

Lemma captureLoop_failures i pick (k : nat) ev b1 b2 b3 :
  Inv i -> capture i = LoopHead 0 -> started i = true -> stopOnce i = false ->
  buf (events i) = [] -> (0 < cap (events i))%nat ->
  (k < 10)%nat ->
  failsN k (backend i) b1 -> ReadEvent b1 = (ev, None, b2) -> failsN 10 b2 b3 ->
  let i1 := captureSteps (2 * k + 2) pick i in
  let i2 := captureSteps 18 pick i1 in
  let i3 := captureStep pick i2 in
  (* the success after k < 10 failures resets the counter *)
  capture i1 = LoopHead 0 /\ buf (events i1) = [ev]
  (* nine further failures keep the loop alive, the tenth ends it *)
  /\ capture i2 = LoopHead 9
  /\ capture i3 = Exited /\ wg i3 = 0%nat
  (* the exit closes neither channel *)
  /\ done i3 = false /\ closed (events i3) = false
  (* a consumer still gets the queued event, then blocks, until Stop *)
  /\ (forall pk, exists i4, Poll pk i3 = Some (ev, true, i4)
        /\ Poll pk i4 = None
        /\ exists i5, Stop pk i4 = (true, i5)
             /\ Poll pk i5 = Some (Event_zero, false, i5)).
Proof.
  intros HI Hc Hst Hon Hbuf Hcap Hk Hf1 Hr Hf2 i1 i2 i3.
  assert (Hd : done i = false).
  { destruct (done i) eqn:E; [| reflexivity].
    destruct (inv_done i HI E). congruence. }
  assert (Hcl : closed (events i) = false).
  { destruct (closed (events i)) eqn:E; [| reflexivity].
    destruct (inv_closed i HI E). congruence. }
  assert (HI3 : Inv i3)
    by (apply Inv_captureStep; do 2 apply Inv_captureSteps; exact HI).
  assert (E1 : i1 = set_capture (LoopHead 0)
            (set_events (mkChan [ev] (cap (events i)) false) (set_backend b2 i))).
  { subst i1. rewrite captureSteps_add.
    rewrite (captureSteps_failures k pick i 0 b1)
      by (assumption || (unfold maxConsecutiveErrors; lia)).
    rewrite (captureStep_success pick _ (0 + Z.of_nat k) ev b2);
      cbn; rewrite ?Hbuf; try assumption; try reflexivity. }
  clearbody i1. subst i1.
  destruct (failsN_add 9 1 _ _ Hf2) as (b9 & Hf9 & (ev' & e' & b10 & Hr' & He' & _)).
  assert (E2 : i2 = set_capture (LoopHead 9)
            (set_events (mkChan [ev] (cap (events i)) false) (set_backend b9 i))).
  { subst i2.
    rewrite (captureSteps_failures 9 pick _ 0 b9);
      cbn; try assumption; reflexivity. }
  clearbody i2. subst i2.
  assert (E3 : i3 = captureExit
            (set_events (mkChan [ev] (cap (events i)) false) (set_backend b10 i))).
  { subst i3.
    rewrite (captureStep_last_failure pick _ 9 ev' e' b10);
      cbn; try assumption; try reflexivity; try discriminate. }
  clearbody i3.
  pose proof (inv_wg i HI) as Hwg. rewrite Hc in Hwg. cbn in Hwg.
  assert (HP : forall pk, Poll pk i3
                 = Some (ev, true,
                     updateKeyState ev
                       (set_events (mkChan [] (cap (events i)) false) i3)))
    by (intros pk; rewrite E3; unfold Poll; cbn; rewrite Hd; reflexivity).
  split; [reflexivity |]. split; [reflexivity |]. split; [reflexivity |].
  split; [rewrite E3; reflexivity |].
  split; [rewrite E3; cbn; rewrite Hwg; reflexivity |].
  split; [rewrite E3; exact Hd |].
  split; [rewrite E3; reflexivity |].
  intros pk.
  eexists. split; [apply HP |].
  pose proof (Inv_Poll _ _ _ _ _ HI3 (HP pk)) as HI4.
  assert (Hfields : forall j, started (updateKeyState ev j) = started j
                    /\ stopOnce (updateKeyState ev j) = stopOnce j
                    /\ done (updateKeyState ev j) = done j
                    /\ events (updateKeyState ev j) = events j)
    by (intros j; unfold updateKeyState; destruct (EPressed ev); auto).
  destruct (Hfields (set_events (mkChan [] (cap (events i)) false) i3))
    as (Hs4 & Ho4 & Hd4 & He4).
  split; [apply Poll_blocks; rewrite ?He4, ?Hd4; cbn; rewrite ?E3; auto |].
  destruct (Stop_effective pk _ HI4) as (i5 & ES & _ & _ & _ & Hev5 & _);
    [rewrite Hs4, E3; exact Hst | rewrite Ho4, E3; exact Hon |].
  exists i5. split; [exact ES |].
  apply Poll_stopped; rewrite Hev5; reflexivity.
Qed.


Lemma IsPressed_updateKeyState e i :
  IsPressed (EKey e) (updateKeyState e i) = EPressed e.
Proof.
  unfold IsPressed, updateKeyState.
  destruct (EPressed e); cbn; rewrite lookup_insert_eq; reflexivity.
Qed.

Lemma delivery_updates_keyState i pick e i' :
  Poll pick i = Some (e, true, i') \/ Next i = (Some e, i') ->
  IsPressed (EKey e) i' = EPressed e
  /\ (forall pk j, keyState (captureStep pk j) = keyState j).
Proof.
  intros H. split; [| intros; apply keyState_captureStep].
  destruct H as [H | H].
  - unfold Poll in H.
    destruct (buf (events i)) as [| ev rest] eqn:Eb;
      destruct (recvReady (events i)), (done i), pick; try discriminate;
      inversion H; subst; apply IsPressed_updateKeyState.
  - unfold Next in H.
    destruct (recvReady (events i)); [| discriminate].
    destruct (buf (events i)) as [| ev rest];
      inversion H; subst; apply IsPressed_updateKeyState.
Qed.

Lemma keyState_Start i : keyState (snd (Start i)) = keyState i.
Proof.
  unfold Start. destruct (started i); [reflexivity |].
  destruct (Init (backend i)) as [[e |] b]; reflexivity.
Qed.

Lemma Pristine_New (b : B) : Pristine (New b).
Proof. cbv [Pristine]. cbn. auto 10. Qed.

Lemma Pristine_step i o :
  Pristine i -> (o = OpStart -> fst (Start i) <> None) -> Pristine (step i o).
Proof.
  intros (Hc & Hk & Hb & Hcl & Hd & Hs) Hstart. destruct o; cbn [step].
  - specialize (Hstart eq_refl). unfold Start in *. rewrite Hs in *.
    destruct (Init (backend i)) as [[e |] b]; [| cbn in Hstart; congruence].
    cbv [Pristine]. cbn. auto 10.
  - unfold Stop. destruct (stopOnce i); [cbv [Pristine]; auto 10 |].
    cbn [started set_stopOnce]. rewrite Hs. cbv [Pristine]. cbn. auto 10.
  - unfold Poll, recvReady. rewrite Hb, Hcl, Hd. cbv [Pristine]. auto 10.
  - unfold Next, recvReady. rewrite Hb, Hcl. cbv [Pristine]. auto 10.
  - unfold captureStep. rewrite Hc. cbv [Pristine]. auto 10.
Qed.

Lemma Pristine_run ops : forall i,
  Pristine i -> noStartSucceeded ops i -> Pristine (run ops i).
Proof.
  induction ops as [| o ops IH]; intros i HP Hn; [exact HP |].
  destruct Hn as [Ho Hn]. cbn. apply IH; [apply Pristine_step |]; assumption.
Qed.

Lemma first_Start_empty (b : B) (ops : list Op) i' :
  noStartSucceeded ops (New b) -> Start (run ops (New b)) = (None, i') ->
  (forall k, IsPressed k i' = false)
  /\ (forall j, keyState (snd (Start j)) = keyState j).
Proof.
  intros Hn HS. split; [| apply keyState_Start].
  destruct (Pristine_run ops _ (Pristine_New b) Hn) as (_ & Hk & _).
  intros k. unfold IsPressed.
  pose proof (keyState_Start (run ops (New b))) as E. rewrite HS in E.
  cbn [snd] in E. rewrite E, Hk, lookup_empty. reflexivity.
Qed.

Lemma Stop_Start_Stop (b : B) pick pick' i1 :
  Start (snd (Stop pick (New b))) = (None, i1) ->
  Stop pick' i1 = (true, i1)
  /\ started i1 = true /\ done i1 = false /\ closed (events i1) = false
  /\ capture i1 = LoopHead 0
  /\ backend i1 = snd (Init b)
  /\ (forall pk, Poll pk i1 = None).
Proof.
  intros H. unfold Stop, Start in H. cbn in H.
  destruct (Init b) as [[e |] b'] eqn:EI; [discriminate |].
  inversion H; subst. unfold Stop, Poll. cbn. repeat split; reflexivity.
Qed.

Lemma closed_step i o :
  Inv i -> closed (events i) = true -> closed (events (step i o)) = true.
Proof.
  intros HI Hcl. destruct (inv_closed i HI Hcl) as [Hd Hb].
  destruct (inv_done i HI Hd) as (Ho & _ & Hcap).
  destruct o; cbn [step].
  - unfold Start. destruct (started i); [exact Hcl |].
    destruct (Init (backend i)) as [[e |] b']; exact Hcl.
  - unfold Stop. rewrite Ho. exact Hcl.
  - rewrite Poll_stopped by assumption. exact Hcl.
  - unfold Next, recvReady, updateKeyState. rewrite Hb, Hcl. cbn. exact Hcl.
  - unfold captureStep, captureExit. rewrite Hd.
    destruct (capture i); try exact Hcl; contradiction.
Qed.

Lemma closed_run ops : forall i,
  Inv i -> closed (events i) = true -> closed (events (run ops i)) = true.
Proof.
  induction ops as [| o ops IH]; intros i HI Hcl; [exact Hcl |].
  cbn. apply IH; [apply Inv_step, HI | apply closed_step; assumption].
Qed.

Lemma Next_on_closed (b : B) (ops1 ops2 : list Op) pick :
  let i1 := run ops1 (New b) in
  started i1 = true -> stopOnce i1 = false ->
  let i2 := run ops2 (snd (Stop pick i1)) in
  fst (Stop pick i1) = true
  /\ fst (Next i2) = Some Event_zero
  /\ keyState (snd (Next i2)) !! KeyUnknown = Some false
  /\ (forall ops, let j := run ops (New b) in
        fst (Next j) = None ->
        buf (events j) = [] /\ closed (events j) = false /\ done j = false).
Proof.
  intros i1 Hst Hon i2.
  assert (HI1 : Inv i1) by (apply Inv_run, Inv_New).
  destruct (Stop_effective pick i1 HI1 Hst Hon)
    as (i' & ES & _ & _ & _ & Hev & _ & _ & _ & HI').
  assert (Hcl2 : closed (events i2) = true).
  { subst i2. rewrite ES. cbn [snd]. apply closed_run; [exact HI' |].
    rewrite Hev. reflexivity. }
  assert (HI2 : Inv i2) by (subst i2; rewrite ES; apply Inv_run, HI').
  destruct (inv_closed i2 HI2 Hcl2) as [Hd2 Hb2].
  split; [rewrite ES; reflexivity |].
  assert (EN : Next i2 = (Some Event_zero, updateKeyState Event_zero i2))
    by (unfold Next, recvReady; rewrite Hb2, Hcl2; reflexivity).
  rewrite EN. cbn [fst snd].
  split; [reflexivity |]. split; [apply lookup_insert_eq |].
  intros ops. cbv zeta. set (j := run ops (New b)). intros Hnil.
  assert (HIj : Inv j) by (apply Inv_run, Inv_New).
  unfold Next, recvReady in Hnil.
  destruct (buf (events j)) as [| e rest]; [| discriminate].
  destruct (closed (events j)) eqn:Ecl; [discriminate |].
  repeat split. destruct (done j) eqn:Ed; [| reflexivity].
  destruct (inv_done j HIj Ed) as (_ & Hc & _). congruence.
Qed.

End ImplClaims.

(* ===================================================================== *)
(** * The claims *)
(* ===================================================================== *)

(** ** The sequence decoder *)

(** C1 (where the code departs from it). A lone 0x09 or 0x0D never reaches
    the Tab and Enter cases of [Parse]: the test for the control range
    0x01-0x1A comes first and [ctrlCharToKey] has no case for either, so
    both come out as [KeyUnknown] with [ModCtrl] and no rune; a lone 0x08
    comes out as [KeyCtrlH] with [ModCtrl], never as [KeyBackspace]. *)
Theorem Parse_single_byte_tab_enter (now : Time) (p : SequenceParser) :
  Parse now p [x09] = (mkEvent KeyUnknown 0 ModCtrl now true false, None)
  /\ Parse now p [x0d] = (mkEvent KeyUnknown 0 ModCtrl now true false, None)
  /\ Parse now p [x08] = (mkEvent KeyCtrlH 0 ModCtrl now true false, None).
Proof. exact (Parse_single_tab_enter now p). Qed.

(** C2. Every sequence [buildTrie] inserts parses to an event with the key
    and the modifiers it was inserted with, and without error. *)
Theorem Parse_trie_sequences (now : Time) (S : list byte) (K : Key) (M : Modifier) :
  In (S, K, M) sequenceTable ->
  Parse now NewSequenceParser S = (mkEvent K 0 M now true false, None).
Proof. exact (Parse_table now S K M). Qed.

Lemma Parse_trie_sequences_witness :
  Parse 0 NewSequenceParser [x1b; ch "["; ch "A"]
  = (mkEvent KeyUp 0 ModNone 0 true false, None).
Proof.
  apply (Parse_trie_sequences 0 [x1b; ch "["; ch "A"] KeyUp ModNone).
  simpl. left. reflexivity.
Defined.

(** C3. The encoding of a scalar value above U+007F, which takes two to
    four bytes, parses to an event that carries the value as its rune,
    with [KeyUnknown] and without error. *)
Theorem Parse_valid_utf8 (now : Time) (p : SequenceParser) (V : rune) :
  utf8.ValidRune V = true -> 128 <= V ->
  (2 <= length (utf8.EncodeRune V) <= 4)%nat
  /\ Parse now p (utf8.EncodeRune V)
     = (mkEvent KeyUnknown V ModNone now true false, None).
Proof.
  intros HV Hge. split; [| exact (Parse_EncodeRune now p V HV Hge)].
  exact (proj2 (WellFormed_lead _ (EncodeRune_WellFormed V HV Hge))).
Qed.

Lemma Parse_valid_utf8_witness :
  Parse 0 NewSequenceParser [xe6; x97; xa5]
  = (mkEvent KeyUnknown 26085 ModNone 0 true false, None).
Proof.
  apply (proj2 (Parse_valid_utf8 0 NewSequenceParser 26085 eq_refl ltac:(lia))).
Defined.



(** ** The unix backend *)




(** ** The capture pipeline *)

Section PipelineClaims.

Context {B : Type} {BB : Backend B}.

(** C6 (as amended). Ten failures of [ReadEvent] in a row, none of them
    [io.EOF], end the capture loop, and a successful read in between
    starts the count again: after fewer than ten failures and a success
    the counter is zero, nine more failures leave the loop running, the
    tenth ends it. The exit closes neither [done] nor [events]: [Poll]
    still hands out the queued event, then blocks, and returns the zero
    event with [false] only once [Stop] has been called. *)
Theorem captureLoop_ten_failures (b : B) (ops : list Op) (pick : bool) (k : nat)
    (ev : Event) (b1 b2 b3 : B) :
  let i := run ops (New b) in
  capture i = LoopHead 0 -> started i = true -> stopOnce i = false ->
  buf (events i) = [] -> (0 < cap (events i))%nat -> (k < 10)%nat ->
  failsN k (backend i) b1 -> ReadEvent b1 = (ev, None, b2) -> failsN 10 b2 b3 ->
  let i1 := captureSteps (2 * k + 2) pick i in
  let i2 := captureSteps 18 pick i1 in
  let i3 := captureStep pick i2 in
  capture i1 = LoopHead 0 /\ buf (events i1) = [ev]
  /\ capture i2 = LoopHead 9
  /\ capture i3 = Exited /\ wg i3 = 0%nat
  /\ done i3 = false /\ closed (events i3) = false
  /\ (forall pk, exists i4, Poll pk i3 = Some (ev, true, i4)
        /\ Poll pk i4 = None
        /\ exists i5, Stop pk i4 = (true, i5)
             /\ Poll pk i5 = Some (Event_zero, false, i5)).
Proof.
  intros i. apply captureLoop_failures. apply Inv_run, Inv_New.
Qed.



(** C9 (where the code departs from it). A [Stop] on an instance that has
    not been started uses up [stopOnce]: after a [Start] that then
    succeeds, [Stop] returns at once and changes nothing. The instance
    stays started, [done] and [events] stay open, the backend is as
    [Init] left it, and [Poll] keeps blocking. *)
Theorem Stop_before_Start_disarms_Stop (b : B) (pick pick' : bool)
    (i1 : inputImpl B) :
  Start (snd (Stop pick (New b))) = (None, i1) ->
  Stop pick' i1 = (true, i1)
  /\ started i1 = true /\ done i1 = false /\ closed (events i1) = false
  /\ capture i1 = LoopHead 0
  /\ backend i1 = snd (Init b)
  /\ (forall pk, Poll pk i1 = None).
Proof. exact (Stop_Start_Stop b pick pick' i1). Qed.


End PipelineClaims.

(** ** The pipeline claims on the unix backend *)

#[local] Existing Instance darwinBackend.

Lemma captureLoop_ten_failures_witness :
  let b := newBackend
             (terminal (Fail EIO :: Chunk [ch "a"] :: replicate 10 (Fail EIO))) in
  let i := run [OpStart] (New b) in
  capture (captureStep true
             (captureSteps 18 true (captureSteps (2 * 1 + 2) true i)))
  = Exited.
Proof.
  intros b i.
  refine (proj1 (proj2 (proj2 (proj2
            (captureLoop_ten_failures b [OpStart] true 1
               (mkEvent KeyA 97 ModNone 0 true false)
               (rawBackend (Chunk [ch "a"] :: replicate 10 (Fail EIO)))
               (rawBackend (replicate 10 (Fail EIO)))
               (rawBackend []) _ _ _ _ _ _ _ _ _))))).
  - reflexivity.
  - reflexivity.
  - reflexivity.
  - reflexivity.
  - simpl. lia.
  - lia.
  - exists Event_zero, EIO, (rawBackend (Chunk [ch "a"] :: replicate 10 (Fail EIO))).
    split; [reflexivity | split; [discriminate | reflexivity]].
  - reflexivity.
  - repeat (match goal with
            | |- failsN (S ?n) _ _ =>
                exists Event_zero, EIO, (rawBackend (replicate n (Fail EIO)));
                split; [reflexivity | split; [discriminate |]]
            end).
    reflexivity.
Defined.

(** C6 as stated fails: after ten failed reads the loop has gone, both
    channels are open and the queue is empty, so a [Poll] blocks instead
    of returning the zero event and [false]. *)
Lemma Poll_blocks_after_ten_failures :
  let i1 := snd (Start (New (newBackend (terminal (replicate 10 (Fail EIO)))))) in
  let i2 := captureSteps 19 true i1 in
  started i1 = true /\ capture i2 = Exited
  /\ done i2 = false /\ closed (events i2) = false /\ buf (events i2) = []
  /\ Poll true i2 = None /\ Poll false i2 = None.
Proof. vm_compute. repeat split; reflexivity. Qed.





Lemma Stop_before_Start_disarms_Stop_witness :
  let b := newBackend (terminal []) in
  started (snd (Start (snd (Stop true (New b))))) = true.
Proof.
  intros b.
  refine (proj1 (proj2 (Stop_before_Start_disarms_Stop b true true
                          (snd (Start (snd (Stop true (New b))))) _))).
  reflexivity.
Defined.

